(** * reward.py: answer extraction and reward computation for GSM8K

    A shallow embedding of [src/reward.py].  Python values are dynamically
    typed, exceptions are explicit ([result]), strings are sequences of code
    points, and the two calls to [re.findall] go through a small backtracking
    matcher for the regular-expression fragment the two patterns of the
    module are written in. *)

From Stdlib Require Import Strings.Ascii Strings.String.
From Stdlib Require Import Bool Arith NArith ZArith Lia List.
From Stdlib Require Import Floats.PrimFloat.
Import ListNotations.

(* [0.3] and [-0.3] are read as the nearest binary64 value, as Python reads
   them. *)
Set Warnings "-inexact-float,-register-all".

(* ================================================================= *)
(** ** Python strings and values *)

(** A Python [str] is a sequence of Unicode code points. *)
Definition char := N.
Definition str := list char.

Definition ord (a : ascii) : char := N_of_ascii a.

(** An ASCII literal of the source, as a [str]. *)
Definition lit (s : string) : str := map ord (list_ascii_of_string s).

Fixpoint str_eqb (a b : str) : bool :=
  match a, b with
  | [], [] => true
  | x :: a', y :: b' => N.eqb x y && str_eqb a' b'
  | _, _ => false
  end.

(** The values a caller can hand to the functions of the module.  The type
    hints say [str] and [List[str]]; Python does not enforce them, and the
    [except Exception] of [trl_reward_fn] exists for the calls that break
    them. *)
Inductive pyval : Type :=
| PyNone
| PyStr (s : str)
| PyInt (z : Z)
| PyList (l : list pyval).

Inductive err_msg : Type :=
| BadMethod (method : str)
| LengthMismatch (n_completions n_solution : nat)
| NoLen
| NotSubscriptable
| ExpectedStringOrBytes
| NoValue.

(** All three are subclasses of [Exception]; none is an [re.error]. *)
Inductive exn : Type :=
| ValueError (m : err_msg)
| TypeError (m : err_msg)
| UnboundLocalError (m : err_msg).

Inductive result (A : Type) : Type :=
| Ok (a : A)
| Raise (e : exn).

Arguments Ok {A} a.
Arguments Raise {A} e.

Definition bind {A B : Type} (m : result A) (f : A -> result B) : result B :=
  match m with
  | Ok a => f a
  | Raise e => Raise e
  end.

Notation "x <- m ;; f" := (bind m (fun x => f))
  (at level 61, m at next level, right associativity).

Definition is_nil {A : Type} (l : list A) : bool :=
  match l with
  | [] => true
  | _ :: _ => false
  end.

(** [bool(v)], as [not v] and [if v] use it. *)
Definition truthy (v : pyval) : bool :=
  match v with
  | PyNone => false
  | PyStr s => negb (is_nil s)
  | PyInt z => negb (Z.eqb z 0)
  | PyList l => negb (is_nil l)
  end.

(** [len(v)] *)
Definition py_len (v : pyval) : result nat :=
  match v with
  | PyStr s => Ok (length s)
  | PyList l => Ok (length l)
  | PyNone | PyInt _ => Raise (TypeError NoLen)
  end.

(** [l[-n:]] for a positive [n]: the last [n] items, all of [l] when it has
    fewer. *)
Definition last_n {A : Type} (n : nat) (l : list A) : list A :=
  skipn (length l - n) l.

Definition py_slice_last (n : nat) (v : pyval) : result pyval :=
  match v with
  | PyStr s => Ok (PyStr (last_n n s))
  | PyList l => Ok (PyList (last_n n l))
  | PyNone | PyInt _ => Raise (TypeError NotSubscriptable)
  end.

(** [s.replace(old, new)] for an [old] of one character. *)
Definition replace_char (old : char) (new : str) (s : str) : str :=
  flat_map (fun c => if N.eqb c old then new else [c]) s.

(** [a == v] for a string [a]. *)
Definition str_eq_val (a : str) (v : pyval) : bool :=
  match v with
  | PyStr s => str_eqb a s
  | _ => false
  end.

(* ================================================================= *)
(** ** The fragment of [re] the module uses *)

Inductive regex : Type :=
| Chr (c : char)                (* a literal character, escaped or not *)
| CharSet (p : char -> bool)    (* [...] *)
| Opt (r : regex)               (* r?  greedy *)
| SetPlus (p : char -> bool)    (* [...]+  greedy *)
| Cat (r1 r2 : regex)           (* r1 r2 *)
| Grp (r : regex).              (* ( r ), the one capturing group *)

Section Matcher.
Variable R : Type.

(** A continuation receives the input that is left and the text of the
    group, when the group has been closed. *)
Definition cont : Type := str -> option str -> option R.

(** [[...]+]: as many characters as possible first, then one fewer each
    time the rest of the pattern fails. *)
Fixpoint plus_set (p : char -> bool) (s : str) (g : option str) (k : cont)
  : option R :=
  match s with
  | [] => None
  | c :: s' =>
      if p c then
        match plus_set p s' g k with
        | Some x => Some x
        | None => k s' g
        end
      else None
  end.

Fixpoint run (r : regex) (s : str) (g : option str) (k : cont) : option R :=
  match r with
  | Chr c =>
      match s with
      | x :: s' => if N.eqb x c then k s' g else None
      | [] => None
      end
  | CharSet p =>
      match s with
      | x :: s' => if p x then k s' g else None
      | [] => None
      end
  | Opt r1 =>
      match run r1 s g k with
      | Some x => Some x
      | None => k s g
      end
  | SetPlus p => plus_set p s g k
  | Cat r1 r2 => run r1 s g (fun s' g' => run r2 s' g' k)
  | Grp r1 =>
      run r1 s g (fun s' _ => k s' (Some (firstn (length s - length s') s)))
  end.
End Matcher.

Arguments plus_set {R} p s g k.
Arguments run {R} r s g k.

(** A match of [r] at the start of [s]: the text of the group (empty when the
    group took no part) and the input after the match. *)
Definition match_here (r : regex) (s : str) : option (str * str) :=
  run r s None
    (fun s' g => Some (match g with Some x => x | None => [] end, s')).

(** [re.findall] for a pattern with one group: the group of every match,
    leftmost first, each search starting where the previous match ended.  A
    match that consumed nothing moves the search one character on; the
    patterns of this module never match the empty string.  The first argument
    bounds the number of searches. *)
Fixpoint findall_from (fuel : nat) (r : regex) (s : str) : list str :=
  match fuel with
  | O => []
  | S n =>
      match match_here r s with
      | Some (g, rest) =>
          match s with
          | [] => [g]
          | _ :: s' =>
              g :: findall_from n r
                     (if length rest <? length s then rest else s')
          end
      | None =>
          match s with
          | [] => []
          | _ :: s' => findall_from n r s'
          end
      end
  end.

Definition findall (r : regex) (s : str) : list str :=
  findall_from (S (length s)) r s.

(** [re.findall(pattern, v)]: a [TypeError] on anything but a string. *)
Definition re_findall (r : regex) (v : pyval) : result (list str) :=
  match v with
  | PyStr s => Ok (findall r s)
  | _ => Raise (TypeError ExpectedStringOrBytes)
  end.

Fixpoint cat_lit (l : str) (r : regex) : regex :=
  match l with
  | [] => r
  | c :: l' => Cat (Chr c) (cat_lit l' r)
  end.

(* ================================================================= *)
(** ** Constants of the module *)

Definition _SOLUTION_CLIP_CHARS : nat := 300.

Definition is_digit (c : char) : bool := (N.leb 48 c && N.leb c 57)%bool.

(** [[0-9\.\,]] *)
Definition num_set (c : char) : bool :=
  (is_digit c || N.eqb c (ord ".") || N.eqb c (ord ","))%bool.

(** [(\-?[0-9\.\,]+)] *)
Definition _FLEXIBLE_ANSWER_PATTERN : regex :=
  Grp (Cat (Opt (Chr (ord "-"))) (SetPlus num_set)).

(** [#### (\-?[0-9\.\,]+)] *)
Definition _STRICT_ANSWER_PATTERN : regex :=
  cat_lit (lit "#### ") (Grp (Cat (Opt (Chr (ord "-"))) (SetPlus num_set))).

Definition _INVALID_ANSWERS : list str := [lit ""; lit "."].

Definition REWARD_CORRECT : float := 1.0%float.
Definition REWARD_FORMAT_CORRECT : float := 0.3%float.
Definition REWARD_NO_ANSWER : float := (-0.3)%float.
Definition REWARD_WRONG : float := 0.0%float.

(* ================================================================= *)
(** ** [extract_solution] *)

(** [x in l] for a list of strings. *)
Definition str_in (x : str) (l : list str) : bool := existsb (str_eqb x) l.

(** The loop over [reversed(answers)]: the first answer that is not an
    invalid one, [None] when the loop ends without a [break]. *)
Fixpoint first_valid (answers : list str) : option str :=
  match answers with
  | [] => None
  | answer :: rest =>
      if negb (str_in answer _INVALID_ANSWERS) then Some answer
      else first_valid rest
  end.

(** The [try] block has a handler for [re.error] only.  The two patterns are
    constants that compile, so [re.findall] raises no [re.error]; the
    [TypeError] it raises on a value that is not a string is not an
    [re.error] and leaves the function.  The last [else] stands for a method
    that is neither of the two: [final_answer] would have no value at the
    [return]; the first test keeps every such method out. *)
Definition extract_solution (solution_str : pyval) (method : str)
  : result (option str) :=
  if negb (str_in method [lit "strict"; lit "flexible"]) then
    Raise (ValueError (BadMethod method))
  else if negb (truthy solution_str) then Ok None
  else
    n <- py_len solution_str ;;
    solution_str <- (if _SOLUTION_CLIP_CHARS <? n
                     then py_slice_last _SOLUTION_CLIP_CHARS solution_str
                     else Ok solution_str) ;;
    if str_eqb method (lit "strict") then
      solutions <- re_findall _STRICT_ANSWER_PATTERN solution_str ;;
      if is_nil solutions then Ok None
      else
        Ok (Some (replace_char (ord "$") []
                    (replace_char (ord ",") [] (last solutions []))))
    else if str_eqb method (lit "flexible") then
      answers <- re_findall _FLEXIBLE_ANSWER_PATTERN solution_str ;;
      if is_nil answers then Ok None
      else Ok (first_valid (rev answers))
    else Raise (UnboundLocalError NoValue).

(* ================================================================= *)
(** ** [compute_score] *)

Definition compute_score (solution_str ground_truth : pyval) (method : str)
    (format_score score : float) : result float :=
  if (negb (truthy solution_str) || negb (truthy ground_truth))%bool then
    Ok REWARD_NO_ANSWER
  else
    answer <- extract_solution solution_str method ;;
    match answer with
    | None => Ok REWARD_NO_ANSWER
    | Some a =>
        if str_eq_val a ground_truth then Ok score else Ok format_score
    end.

(** The call [compute_score(solution_str, ground_truth, method)], the two
    reward arguments left at their defaults. *)
Definition compute_score_default (solution_str ground_truth : pyval)
    (method : str) : result float :=
  compute_score solution_str ground_truth method
    REWARD_FORMAT_CORRECT REWARD_CORRECT.

(* ================================================================= *)
(** ** [trl_reward_fn] *)

(** The body of the [for] loop over [zip(completions, solution)], with the
    list [rewards] it appends to. *)
Fixpoint score_loop (pairs : list (pyval * pyval)) (rewards : list float)
  : result (list float) :=
  match pairs with
  | [] => Ok rewards
  | (model_answer, gt) :: rest =>
      score <- compute_score model_answer gt (lit "strict")
                 REWARD_FORMAT_CORRECT REWARD_CORRECT ;;
      score_loop rest (rewards ++ [score])
  end.

(** [prompts] is not used by the source either, and [**kwargs] is left out.
    The handler catches [Exception], which every exception of [exn] is; its
    [print] is not modelled. *)
Definition trl_reward_fn (prompts completions solution : list pyval)
  : result (list float) :=
  if negb (length completions =? length solution) then
    Raise (ValueError (LengthMismatch (length completions) (length solution)))
  else if is_nil completions then Ok []
  else
    match score_loop (combine completions solution) [] with
    | Ok rewards => Ok rewards
    | Raise _ => Ok (repeat REWARD_NO_ANSWER (length completions))
    end.

(* ================================================================= *)
(** ** What the regular expressions are meant to find *)

Fixpoint take_set (p : char -> bool) (s : str) : str :=
  match s with
  | [] => []
  | c :: s' => if p c then c :: take_set p s' else []
  end.

Fixpoint skip_set (p : char -> bool) (s : str) : str :=
  match s with
  | [] => []
  | c :: s' => if p c then skip_set p s' else s
  end.

Definition starts_with (p : char -> bool) (s : str) : bool :=
  match s with
  | [] => false
  | c :: _ => p c
  end.

Fixpoint strip_prefix (pre s : str) : option str :=
  match pre, s with
  | [], _ => Some s
  | _ :: _, [] => None
  | a :: pre', b :: s' => if N.eqb b a then strip_prefix pre' s' else None
  end.

(** A signed number as the patterns write it: an optional minus sign and
    one or more digits, points and commas. *)
Inductive numeric_token : str -> Prop :=
| nt_plain body :
    body <> [] -> forallb num_set body = true -> numeric_token body
| nt_minus body :
    body <> [] -> forallb num_set body = true ->
    numeric_token (ord "-" :: body).

(** The number that starts at the head of [s], as long as it can be, and the
    text after it. *)
Definition number_at (s : str) : option (str * str) :=
  match s with
  | [] => None
  | c :: t =>
      if N.eqb c (ord "-") then
        if starts_with num_set t
        then Some (c :: take_set num_set t, skip_set num_set t)
        else None
      else if num_set c then Some (take_set num_set s, skip_set num_set s)
      else None
  end.

(** [strict_occ s i tok]: the marker [#### ] stands at offset [i] of [s] and
    [tok] is the number after it, taken as far as it goes. *)
Definition strict_occ (s : str) (i : nat) (tok : str) : Prop :=
  exists pre post,
    s = pre ++ lit "#### " ++ tok ++ post /\
    length pre = i /\
    numeric_token tok /\
    starts_with num_set post = false.

(** The numbers of [s] in flexible mode: [s] read left to right is cut into
    numeric tokens, each as long as it can be, and characters between them. *)
Inductive tokenizes : str -> list str -> Prop :=
| tk_end : tokenizes [] []
| tk_skip c s toks :
    num_set c = false ->
    (c = ord "-" -> starts_with num_set s = false) ->
    tokenizes s toks ->
    tokenizes (c :: s) toks
| tk_token tok s toks :
    numeric_token tok ->
    starts_with num_set s = false ->
    tokenizes s toks ->
    tokenizes (tok ++ s) (tok :: toks).

(** The answer of a backward scan over [toks]: the last token that is not an
    invalid one, nothing when every token is invalid. *)
Definition last_valid_of (toks : list str) (r : option str) : Prop :=
  match r with
  | Some t =>
      exists before after,
        toks = before ++ t :: after /\
        ~ In t _INVALID_ANSWERS /\
        Forall (fun u => In u _INVALID_ANSWERS) after
  | None => Forall (fun u => In u _INVALID_ANSWERS) toks
  end.

(** The marker at the head of [s]: the number after it and the text after
    the number. *)
Definition strict_here (s : str) : option (str * str) :=
  match strip_prefix (lit "#### ") s with
  | Some t => number_at t
  | None => None
  end.

(** The numbers of all the offsets of [s] at which the marker and a number
    stand, one offset after the other. *)
Fixpoint strict_tokens (s : str) : list str :=
  match s with
  | [] => []
  | _ :: s' =>
      match strict_here s with
      | Some (tok, _) => tok :: strict_tokens s'
      | None => strict_tokens s'
      end
  end.

(** A token with its commas and dollar signs taken out. *)
Definition strip_separators (tok : str) : str :=
  filter (fun c => negb (N.eqb c (ord ",")) && negb (N.eqb c (ord "$"))) tok.

(** The offsets of [s] at which the strict pattern matches. *)
Definition strict_offsets (s : str) : list nat :=
  filter (fun i => match strict_here (skipn i s) with
                   | Some _ => true
                   | None => false
                   end)
         (seq 0 (S (length s))).

Definition valid_method (m : str) : Prop :=
  m = lit "strict" \/ m = lit "flexible".

(** [r] is what the loop of [trl_reward_fn] gets for the pair [p]. *)
Definition scored (p : pyval * pyval) (r : float) : Prop :=
  compute_score (fst p) (snd p) (lit "strict")
    REWARD_FORMAT_CORRECT REWARD_CORRECT = Ok r.

(** The rewards [compute_score] hands out when its two reward arguments are
    left at their defaults. *)
Definition default_reward (r : float) : Prop :=
  r = REWARD_NO_ANSWER \/ r = REWARD_FORMAT_CORRECT \/ r = REWARD_CORRECT.

(* ================================================================= *)
(** ** [validate_answer_format] *)

(** [re.search(r, s)]: the leftmost match of [r] in [s], [None] when no
    offset has one. *)
Fixpoint search (r : regex) (s : str) : option (str * str) :=
  match match_here r s with
  | Some m => Some m
  | None =>
      match s with
      | [] => None
      | _ :: s' => search r s'
      end
  end.

Definition re_search (r : regex) (v : pyval) : result (option (str * str)) :=
  match v with
  | PyStr s => Ok (search r s)
  | _ => Raise (TypeError ExpectedStringOrBytes)
  end.

(** [sub in s] for two strings. *)
Fixpoint str_contains (sub s : str) : bool :=
  match strip_prefix sub s with
  | Some _ => true
  | None =>
      match s with
      | [] => false
      | _ :: s' => str_contains sub s'
      end
  end.

Definition is_some {A : Type} (o : option A) : bool :=
  match o with
  | Some _ => true
  | None => false
  end.

(** [\d] on a [str] pattern matches the decimal digits of Unicode, a table
    of the [re] library; it comes in as [unicode_digit].  Once [re.search]
    has returned, [answer] is a string: the last branch is not reached. *)
Definition validate_answer_format (unicode_digit : char -> bool)
    (answer : pyval) : result bool :=
  if negb (truthy answer) then Ok false
  else
    found <- re_search (CharSet unicode_digit) answer ;;
    match answer with
    | PyStr s =>
        let has_number := is_some found in
        let has_format := str_contains (lit "####") s in
        Ok (has_number || has_format)%bool
    | _ => Raise (TypeError ExpectedStringOrBytes)
    end.

(* ================================================================= *)
(** ** Shapes of texts and answers *)

(** [sub] stands somewhere in [s]. *)
Definition occurs_in (sub s : str) : Prop :=
  exists pre post, s = pre ++ sub ++ post.

(** The characters an answer of strict mode is made of: digits, the point
    and the minus sign. *)
Definition answer_char (c : char) : bool :=
  (is_digit c || N.eqb c (ord ".") || N.eqb c (ord "-"))%bool.

(** Scoring the pair [p] in the loop of [trl_reward_fn] raises. *)
Definition score_raises (p : pyval * pyval) : Prop :=
  exists e,
    compute_score (fst p) (snd p) (lit "strict")
      REWARD_FORMAT_CORRECT REWARD_CORRECT = Raise e.

(* ================================================================= *)
(** ** Strings and lists *)

Lemma str_eqb_eq (a b : str) : str_eqb a b = true <-> a = b.
Proof.
  revert b; induction a as [|x a IH]; intros [|y b]; simpl;
    try (split; [discriminate | discriminate]); try tauto.
  rewrite andb_true_iff, N.eqb_eq, IH.
  split; [intros [-> ->]; reflexivity | intros H; injection H; auto].
Qed.

Lemma str_eqb_refl (a : str) : str_eqb a a = true.
Proof. apply str_eqb_eq; reflexivity. Qed.

Lemma str_eqb_neq (a b : str) : str_eqb a b = false <-> a <> b.
Proof.
  rewrite <- str_eqb_eq. destruct (str_eqb a b); split; congruence.
Qed.

Lemma str_in_In (x : str) (l : list str) : str_in x l = true <-> In x l.
Proof.
  unfold str_in. rewrite existsb_exists. split.
  - intros (y & Hy & E). apply str_eqb_eq in E. subst; assumption.
  - intros H. exists x. split; [assumption | apply str_eqb_refl].
Qed.

Lemma take_skip_set (p : char -> bool) (s : str) :
  take_set p s ++ skip_set p s = s.
Proof.
  induction s as [|c s IH]; simpl; [reflexivity|].
  destruct (p c); simpl; [rewrite IH|]; reflexivity.
Qed.

Lemma take_set_all (p : char -> bool) (s : str) :
  forallb p (take_set p s) = true.
Proof.
  induction s as [|c s IH]; simpl; [reflexivity|].
  destruct (p c) eqn:E; simpl; [rewrite E, IH|]; reflexivity.
Qed.

Lemma skip_set_starts (p : char -> bool) (s : str) :
  starts_with p (skip_set p s) = false.
Proof.
  induction s as [|c s IH]; simpl; [reflexivity|].
  destruct (p c) eqn:E; simpl; [exact IH | exact E].
Qed.

Lemma skip_set_length (p : char -> bool) (s : str) :
  length (skip_set p s) <= length s.
Proof.
  induction s as [|c s IH]; simpl; [lia|].
  destruct (p c); simpl; lia.
Qed.

Lemma firstn_take_set (p : char -> bool) (s : str) :
  firstn (length s - length (skip_set p s)) s = take_set p s.
Proof.
  rewrite <- (take_skip_set p s) at 1 3.
  rewrite length_app.
  replace (_ + _ - _) with (length (take_set p s) + 0) by lia.
  rewrite firstn_app_2. simpl. apply app_nil_r.
Qed.

Lemma take_set_app (p : char -> bool) (a b : str) :
  forallb p a = true -> starts_with p b = false ->
  take_set p (a ++ b) = a /\ skip_set p (a ++ b) = b.
Proof.
  intros Ha Hb. induction a as [|c a IH]; simpl in *.
  - destruct b as [|d b]; simpl in *; [auto|]. rewrite Hb. auto.
  - apply andb_true_iff in Ha as [Hc Ha]. rewrite Hc.
    destruct (IH Ha) as [-> ->]. auto.
Qed.

(* ================================================================= *)
(** ** The matcher on the two patterns *)

Lemma skip_set_id (p : char -> bool) (s : str) :
  starts_with p s = false -> skip_set p s = s.
Proof. destruct s as [|c s]; simpl; [reflexivity|]. intros ->. reflexivity. Qed.

Section Greedy.
Variable R : Type.
Variable k : cont R.
Hypothesis k_total : forall s g, k s g <> None.

(** When the rest of the pattern cannot fail, [[...]+] takes every
    character of the set there is. *)
Lemma plus_set_greedy (p : char -> bool) (s : str) (g : option str) :
  plus_set p s g k = if starts_with p s then k (skip_set p s) g else None.
Proof.
  induction s as [|c s IH]; simpl; [reflexivity|].
  destruct (p c) eqn:Hc; [|reflexivity].
  rewrite IH. destruct (starts_with p s) eqn:Hs.
  - destruct (k (skip_set p s) g) eqn:Hk; [reflexivity|].
    exfalso. exact (k_total _ _ Hk).
  - rewrite (skip_set_id _ _ Hs). reflexivity.
Qed.
End Greedy.

Lemma num_set_minus : num_set (ord "-") = false.
Proof. reflexivity. Qed.

Lemma run_number (R : Type) (k : cont R) (s : str) (g : option str) :
  (forall s' g', k s' g' <> None) ->
  run (Grp (Cat (Opt (Chr (ord "-"))) (SetPlus num_set))) s g k =
  match number_at s with
  | Some (tok, rest) => k rest (Some tok)
  | None => None
  end.
Proof.
  intros Hk.
  assert (Hk' : forall s0 : str, forall s' (g' : option str),
             (fun (s1 : str) (_ : option str) =>
                k s1 (Some (firstn (length s0 - length s1) s0))) s' g'
             <> None)
    by (intros; apply Hk).
  cbn [run]. destruct s as [|c t]; [reflexivity|].
  unfold number_at. destruct (N.eqb c (ord "-")) eqn:Hc.
  - apply N.eqb_eq in Hc. subst c.
    rewrite (@plus_set_greedy _ _ (Hk' (ord "-" :: t))).
    destruct (starts_with num_set t) eqn:Hs.
    + pose proof (skip_set_length num_set t) as Hl.
      replace (length (ord "-" :: t) - length (skip_set num_set t))
        with (S (length t - length (skip_set num_set t)))
        by (change (length (ord "-" :: t)) with (S (length t)); lia).
      rewrite firstn_cons, firstn_take_set.
      destruct (k (skip_set num_set t) (Some (ord "-" :: take_set num_set t)))
        eqn:E; [exact (eq_sym E) | exfalso; exact (Hk _ _ E)].
    + rewrite (@plus_set_greedy _ _ (Hk' (ord "-" :: t))).
      cbn [starts_with]. rewrite num_set_minus. reflexivity.
  - rewrite (@plus_set_greedy _ _ (Hk' (c :: t))).
    cbn [starts_with]. destruct (num_set c) eqn:Hn; [|reflexivity].
    rewrite firstn_take_set. reflexivity.
Qed.

Lemma run_cat_lit (R : Type) (k : cont R) (l : str) (r : regex) (s : str)
    (g : option str) :
  run (cat_lit l r) s g k =
  match strip_prefix l s with
  | Some t => run r t g k
  | None => None
  end.
Proof.
  revert s; induction l as [|a l IH]; intros s; [reflexivity|].
  cbn [cat_lit run strip_prefix]. destruct s as [|b s]; [reflexivity|].
  destruct (N.eqb b a); [apply IH | reflexivity].
Qed.

Lemma match_here_flexible (s : str) :
  match_here _FLEXIBLE_ANSWER_PATTERN s = number_at s.
Proof.
  unfold match_here, _FLEXIBLE_ANSWER_PATTERN.
  rewrite run_number by discriminate.
  destruct (number_at s) as [[tok rest]|]; reflexivity.
Qed.

Lemma match_here_strict (s : str) :
  match_here _STRICT_ANSWER_PATTERN s = strict_here s.
Proof.
  unfold match_here, _STRICT_ANSWER_PATTERN, strict_here.
  rewrite run_cat_lit. destruct (strip_prefix (lit "#### ") s) as [t|];
    [|reflexivity].
  rewrite run_number by discriminate.
  destruct (number_at t) as [[tok rest]|]; reflexivity.
Qed.

(** The bound of [findall] is never reached: any bound above the length of
    the string gives the same list. *)
Lemma findall_from_fuel (r : regex) (fuel fuel' : nat) (s : str) :
  length s < fuel -> length s < fuel' ->
  findall_from fuel r s = findall_from fuel' r s.
Proof.
  revert fuel' s; induction fuel as [|n IH]; intros [|n'] s H H'; try lia.
  cbn [findall_from].
  destruct (match_here r s) as [[g rest]|]; destruct s as [|c s'];
    try reflexivity.
  - f_equal. simpl in H, H'.
    destruct (length rest <? length (c :: s')) eqn:E.
    + apply Nat.ltb_lt in E. simpl in E. apply IH; lia.
    + apply IH; lia.
  - simpl in H, H'. apply IH; lia.
Qed.

(* ================================================================= *)
(** ** Numbers at the head of a string *)

Lemma strip_prefix_app (pre t : str) : strip_prefix pre (pre ++ t) = Some t.
Proof.
  induction pre as [|a pre IH]; simpl; [reflexivity|].
  rewrite N.eqb_refl. exact IH.
Qed.

Lemma strip_prefix_Some (pre s t : str) :
  strip_prefix pre s = Some t -> s = pre ++ t.
Proof.
  revert s; induction pre as [|a pre IH]; intros s; simpl.
  - intros H; injection H; auto.
  - destruct s as [|b s]; [discriminate|].
    destruct (N.eqb b a) eqn:E; [|discriminate].
    apply N.eqb_eq in E. subst b. intros H. rewrite (IH _ H). reflexivity.
Qed.

Lemma starts_with_app (p : char -> bool) (a b : str) :
  a <> [] -> forallb p a = true -> starts_with p (a ++ b) = true.
Proof.
  destruct a as [|c a]; [congruence|]. simpl.
  intros _ H. apply andb_true_iff in H. tauto.
Qed.

Lemma number_at_sound (s tok rest : str) :
  number_at s = Some (tok, rest) ->
  s = tok ++ rest /\ numeric_token tok /\ starts_with num_set rest = false.
Proof.
  destruct s as [|c t]; [discriminate|]. unfold number_at.
  destruct (N.eqb c (ord "-")) eqn:Hc.
  - apply N.eqb_eq in Hc. subst c.
    destruct (starts_with num_set t) eqn:Hs; [|discriminate].
    intros H; injection H as <- <-. repeat split.
    + cbn [app]. f_equal. symmetry. apply take_skip_set.
    + apply nt_minus; [|apply take_set_all].
      destruct t as [|d t]; [discriminate|]. simpl in *. now rewrite Hs.
    + apply skip_set_starts.
  - destruct (num_set c) eqn:Hn; [|discriminate].
    intros H; injection H as <- <-. repeat split.
    + symmetry. apply (take_skip_set num_set (c :: t)).
    + apply nt_plain; [|apply (take_set_all num_set (c :: t))].
      simpl. now rewrite Hn.
    + apply (skip_set_starts num_set (c :: t)).
Qed.

Lemma number_at_complete (tok rest : str) :
  numeric_token tok -> starts_with num_set rest = false ->
  number_at (tok ++ rest) = Some (tok, rest).
Proof.
  intros Ht Hr. destruct Ht as [body Hne Hall | body Hne Hall].
  - destruct (take_set_app _ _ _ Hall Hr) as [E1 E2].
    destruct body as [|c b]; [congruence|].
    unfold number_at. cbn [app]. change (c :: b ++ rest) with ((c :: b) ++ rest).
    rewrite E1, E2. simpl in Hall. apply andb_true_iff in Hall as [Hc _].
    destruct (N.eqb c (ord "-")) eqn:E.
    + apply N.eqb_eq in E. subst c. rewrite num_set_minus in Hc. discriminate.
    + now rewrite Hc.
  - destruct (take_set_app _ _ _ Hall Hr) as [E1 E2].
    unfold number_at. cbn [app]. rewrite N.eqb_refl.
    rewrite (starts_with_app _ _ rest Hne Hall), E1, E2. reflexivity.
Qed.

Lemma numeric_token_nonempty (tok : str) : numeric_token tok -> tok <> [].
Proof. intros [body H _|body _ _]; [exact H | discriminate]. Qed.

Lemma numeric_token_no_hash (tok : str) :
  numeric_token tok -> Forall (fun c => N.eqb c (ord "#") = false) tok.
Proof.
  assert (A : forall body, forallb num_set body = true ->
                           Forall (fun c => N.eqb c (ord "#") = false) body).
  { induction body as [|c b IH]; simpl; intros H; constructor.
    - apply andb_true_iff in H as [H _].
      apply N.eqb_neq. intros ->. vm_compute in H. discriminate.
    - apply IH. apply andb_true_iff in H. tauto. }
  intros [body _ H|body _ H]; [auto|]. constructor; [reflexivity | auto].
Qed.

Lemma strict_here_sound (s tok rest : str) :
  strict_here s = Some (tok, rest) ->
  s = lit "#### " ++ tok ++ rest /\ numeric_token tok /\
  starts_with num_set rest = false.
Proof.
  unfold strict_here.
  destruct (strip_prefix (lit "#### ") s) as [t|] eqn:E; [|discriminate].
  apply strip_prefix_Some in E. intros H.
  apply number_at_sound in H as (-> & Ht & Hr). auto.
Qed.

Lemma strict_here_complete (tok rest : str) :
  numeric_token tok -> starts_with num_set rest = false ->
  strict_here (lit "#### " ++ tok ++ rest) = Some (tok, rest).
Proof.
  intros Ht Hr. unfold strict_here.
  rewrite strip_prefix_app. now apply number_at_complete.
Qed.

Lemma strict_here_no_hash (c : char) (s : str) :
  N.eqb c (ord "#") = false -> strict_here (c :: s) = None.
Proof.
  intros H. unfold strict_here, lit.
  cbn [list_ascii_of_string map strip_prefix]. now rewrite H.
Qed.

(** Neither pattern matches the empty string: every search of [findall]
    starts where the match before it ended. *)
Lemma match_here_consumes (r : regex) (s g rest : str) :
  r = _STRICT_ANSWER_PATTERN \/ r = _FLEXIBLE_ANSWER_PATTERN ->
  match_here r s = Some (g, rest) -> length rest < length s.
Proof.
  intros [-> | ->].
  - rewrite match_here_strict. intros H.
    apply strict_here_sound in H as (-> & _ & _).
    rewrite !length_app. simpl. lia.
  - rewrite match_here_flexible. intros H.
    apply number_at_sound in H as (-> & Ht & _).
    apply numeric_token_nonempty in Ht. rewrite length_app.
    destruct g; [congruence | simpl; lia].
Qed.

(* ================================================================= *)
(** ** [findall] on the strict pattern *)

Lemma strict_tokens_skip (tok rest : str) :
  Forall (fun c => N.eqb c (ord "#") = false) tok ->
  strict_tokens (tok ++ rest) = strict_tokens rest.
Proof.
  induction 1 as [|c tok Hc _ IH]; [reflexivity|].
  cbn [app strict_tokens]. rewrite (strict_here_no_hash _ _ Hc). exact IH.
Qed.

Lemma strict_here_inside3 (x : str) :
  strict_here (ord "#" :: ord "#" :: ord "#" :: ord " " :: x) = None.
Proof. reflexivity. Qed.

Lemma strict_here_inside2 (x : str) :
  strict_here (ord "#" :: ord "#" :: ord " " :: x) = None.
Proof. reflexivity. Qed.

Lemma strict_here_inside1 (x : str) :
  strict_here (ord "#" :: ord " " :: x) = None.
Proof. reflexivity. Qed.

Lemma strict_here_inside0 (x : str) : strict_here (ord " " :: x) = None.
Proof. reflexivity. Qed.

(** No match of the strict pattern starts inside another one: a search
    that goes on after a match misses nothing. *)
Lemma strict_tokens_match (s tok rest : str) :
  strict_here s = Some (tok, rest) ->
  strict_tokens s = tok :: strict_tokens rest.
Proof.
  intros H. destruct (strict_here_sound _ _ _ H) as (E & Ht & _).
  subst s.
  change (lit "#### " ++ tok ++ rest)
    with (ord "#" :: ord "#" :: ord "#" :: ord "#" :: ord " " :: tok ++ rest)
    in *.
  cbn [strict_tokens]. rewrite H.
  rewrite strict_here_inside3, strict_here_inside2, strict_here_inside1,
    strict_here_inside0.
  f_equal. apply strict_tokens_skip. now apply numeric_token_no_hash.
Qed.

Lemma findall_from_strict (fuel : nat) (s : str) :
  length s < fuel ->
  findall_from fuel _STRICT_ANSWER_PATTERN s = strict_tokens s.
Proof.
  revert s; induction fuel as [|n IH]; intros s Hlen; [lia|].
  cbn [findall_from]. rewrite match_here_strict.
  destruct s as [|c s'].
  - reflexivity.
  - destruct (strict_here (c :: s')) as [[tok rest]|] eqn:H.
    + rewrite (strict_tokens_match _ _ _ H).
      destruct (strict_here_sound _ _ _ H) as (E & _ & _).
      assert (Hr : length rest < length (c :: s')).
      { rewrite E, !length_app. simpl. lia. }
      apply Nat.ltb_lt in Hr. rewrite Hr. apply Nat.ltb_lt in Hr.
      rewrite IH by lia. reflexivity.
    + cbn [strict_tokens]. rewrite H. apply IH. simpl in Hlen. lia.
Qed.

Lemma findall_strict (s : str) :
  findall _STRICT_ANSWER_PATTERN s = strict_tokens s.
Proof. apply findall_from_strict. lia. Qed.

(** *** Occurrences, by offset *)

Lemma strict_occ_iff (s : str) (i : nat) (tok : str) :
  strict_occ s i tok <->
  i <= length s /\ exists rest, strict_here (skipn i s) = Some (tok, rest).
Proof.
  split.
  - intros (pre & post & -> & <- & Ht & Hp). split.
    + rewrite length_app. lia.
    + exists post. rewrite skipn_app, skipn_all, Nat.sub_diag. simpl skipn.
      now apply strict_here_complete.
  - intros (Hi & rest & H).
    destruct (strict_here_sound _ _ _ H) as (E & Ht & Hr).
    exists (firstn i s), rest. repeat split; auto.
    + rewrite <- E. symmetry. apply firstn_skipn.
    + apply firstn_length_le. exact Hi.
Qed.

Lemma strict_occ_0 (s tok : str) :
  strict_occ s 0 tok <-> exists rest, strict_here s = Some (tok, rest).
Proof.
  rewrite strict_occ_iff. simpl skipn. split; [tauto|].
  intros H; split; [lia | exact H].
Qed.

Lemma strict_occ_S (c : char) (s : str) (i : nat) (tok : str) :
  strict_occ (c :: s) (S i) tok <-> strict_occ s i tok.
Proof. rewrite !strict_occ_iff. simpl. split; intros [H1 H2]; split; auto; lia. Qed.

Lemma strict_tokens_none (s : str) :
  (forall i tok, ~ strict_occ s i tok) -> strict_tokens s = [].
Proof.
  induction s as [|c s IH]; intros H; [reflexivity|].
  cbn [strict_tokens].
  destruct (strict_here (c :: s)) as [[tok rest]|] eqn:E.
  - exfalso. apply (H 0 tok). apply strict_occ_0. eauto.
  - apply IH. intros i tok Hocc. apply (H (S i) tok).
    now apply strict_occ_S.
Qed.

Lemma last_cons_nonempty (A : Type) (x d : A) (l : list A) :
  l <> [] -> last (x :: l) d = last l d.
Proof. destruct l; [congruence | reflexivity]. Qed.

Lemma strict_tokens_last (s : str) (i : nat) (tok : str) :
  strict_occ s i tok ->
  (forall j tok', strict_occ s j tok' -> j <= i) ->
  strict_tokens s <> [] /\ last (strict_tokens s) [] = tok.
Proof.
  revert i; induction s as [|c s IH]; intros i Hocc Hmax.
  - apply strict_occ_iff in Hocc as (_ & rest & H).
    rewrite skipn_nil in H. discriminate.
  - destruct i as [|i].
    + apply strict_occ_0 in Hocc as (rest & H).
      cbn [strict_tokens]. rewrite H.
      rewrite strict_tokens_none; [split; [discriminate | reflexivity]|].
      intros j tok' Hj. apply (strict_occ_S c) in Hj.
      apply Hmax in Hj. lia.
    + apply strict_occ_S in Hocc.
      destruct (IH i Hocc) as [Hne Hlast].
      { intros j tok' Hj. apply (strict_occ_S c) in Hj.
        apply Hmax in Hj. lia. }
      cbn [strict_tokens].
      destruct (strict_here (c :: s)) as [[tok0 rest]|]; [|auto].
      split; [discriminate|]. now rewrite last_cons_nonempty.
Qed.

(* ================================================================= *)
(** ** [findall] on the flexible pattern *)

Lemma number_at_None (c : char) (s : str) :
  number_at (c :: s) = None ->
  num_set c = false /\ (c = ord "-" -> starts_with num_set s = false).
Proof.
  unfold number_at. destruct (N.eqb c (ord "-")) eqn:Hc.
  - apply N.eqb_eq in Hc. subst c.
    destruct (starts_with num_set s); [discriminate|]. auto using num_set_minus.
  - apply N.eqb_neq in Hc. destruct (num_set c); [discriminate|].
    split; [reflexivity | congruence].
Qed.

Lemma number_at_skip (c : char) (s : str) :
  num_set c = false -> (c = ord "-" -> starts_with num_set s = false) ->
  number_at (c :: s) = None.
Proof.
  intros Hc Hm. unfold number_at. destruct (N.eqb c (ord "-")) eqn:E.
  - apply N.eqb_eq in E. now rewrite (Hm E).
  - now rewrite Hc.
Qed.

Lemma findall_from_tokenizes (fuel : nat) (s : str) :
  length s < fuel ->
  tokenizes s (findall_from fuel _FLEXIBLE_ANSWER_PATTERN s).
Proof.
  revert s; induction fuel as [|n IH]; intros s Hlen; [lia|].
  cbn [findall_from]. rewrite match_here_flexible.
  destruct s as [|c s'].
  - apply tk_end.
  - destruct (number_at (c :: s')) as [[tok rest]|] eqn:H.
    + destruct (number_at_sound _ _ _ H) as (E & Ht & Hr).
      pose proof (numeric_token_nonempty _ Ht) as Hne.
      assert (Hl : length rest < length (c :: s')).
      { rewrite E, length_app. destruct tok; [congruence | simpl; lia]. }
      apply Nat.ltb_lt in Hl. rewrite Hl. apply Nat.ltb_lt in Hl.
      rewrite E at 1. apply tk_token; auto. apply IH. lia.
    + destruct (number_at_None _ _ H) as [Hc Hm].
      apply tk_skip; auto. apply IH. simpl in Hlen. lia.
Qed.

Lemma tokenizes_findall_from (s : str) (toks : list str) :
  tokenizes s toks ->
  forall fuel, length s < fuel ->
  findall_from fuel _FLEXIBLE_ANSWER_PATTERN s = toks.
Proof.
  induction 1 as [|c s toks Hc Hm _ IH|tok s toks Ht Hs _ IH];
    intros [|n] Hlen; try lia; cbn [findall_from];
    rewrite match_here_flexible.
  - reflexivity.
  - rewrite (number_at_skip _ _ Hc Hm). apply IH. simpl in Hlen. lia.
  - rewrite (number_at_complete _ _ Ht Hs).
    pose proof (numeric_token_nonempty _ Ht) as Hne.
    destruct tok as [|c tok]; [congruence|]. cbn [app].
    change (c :: tok ++ s) with ((c :: tok) ++ s).
    assert (Hl : length s < length ((c :: tok) ++ s))
      by (rewrite length_app; simpl; lia).
    apply Nat.ltb_lt in Hl. rewrite Hl. apply Nat.ltb_lt in Hl.
    rewrite IH by lia. reflexivity.
Qed.

(** The token list of a string exists and is the one [findall] returns. *)
Lemma tokenizes_iff (s : str) (toks : list str) :
  tokenizes s toks <-> findall _FLEXIBLE_ANSWER_PATTERN s = toks.
Proof.
  split.
  - intros H. apply (tokenizes_findall_from _ _ H). lia.
  - intros <-. apply findall_from_tokenizes. lia.
Qed.

Lemma first_valid_spec (l : list str) :
  match first_valid l with
  | Some t =>
      exists before after,
        l = before ++ t :: after /\
        ~ In t _INVALID_ANSWERS /\
        Forall (fun u => In u _INVALID_ANSWERS) before
  | None => Forall (fun u => In u _INVALID_ANSWERS) l
  end.
Proof.
  induction l as [|a l IH]; cbn [first_valid]; [constructor|].
  destruct (str_in a _INVALID_ANSWERS) eqn:E; cbn [negb].
  - apply str_in_In in E. destruct (first_valid l) as [t|].
    + destruct IH as (b & af & -> & Hn & Hb).
      exists (a :: b), af. repeat split; auto.
    + constructor; auto.
  - exists [], l. repeat split; auto.
    intros Hin. apply str_in_In in Hin. congruence.
Qed.

Lemma first_valid_rev (toks : list str) :
  last_valid_of toks (first_valid (rev toks)).
Proof.
  pose proof (first_valid_spec (rev toks)) as H. unfold last_valid_of.
  destruct (first_valid (rev toks)) as [t|].
  - destruct H as (b & af & E & Hn & Hb).
    exists (rev af), (rev b). repeat split; auto.
    + rewrite <- (rev_involutive toks), E, rev_app_distr.
      simpl. now rewrite <- app_assoc.
    + apply Forall_rev. exact Hb.
  - rewrite <- (rev_involutive toks). apply Forall_rev. exact H.
Qed.

Lemma last_valid_of_unique (toks : list str) (r1 r2 : option str) :
  last_valid_of toks r1 -> last_valid_of toks r2 -> r1 = r2.
Proof.
  assert (A : forall (b1 b2 a1 a2 : list str) t1 t2,
             b1 ++ t1 :: a1 = b2 ++ t2 :: a2 ->
             ~ In t1 _INVALID_ANSWERS -> ~ In t2 _INVALID_ANSWERS ->
             Forall (fun u => In u _INVALID_ANSWERS) a1 ->
             Forall (fun u => In u _INVALID_ANSWERS) a2 -> t1 = t2).
  { intros b1 b2 a1 a2 t1 t2 E N1 N2 F1 F2.
    assert (R : rev a1 ++ t1 :: rev b1 = rev a2 ++ t2 :: rev b2).
    { apply (f_equal (@rev str)) in E.
      rewrite !rev_app_distr in E. simpl in E.
      now rewrite <- !app_assoc in E. }
    apply Forall_rev in F1, F2. clear E.
    revert R F1 F2. generalize (rev a1) (rev a2) (rev b1) (rev b2).
    induction l as [|x l IH]; intros [|y l'] c1 c2 R F1 F2; simpl in R.
    - congruence.
    - injection R as -> _. inversion F2; subst. contradiction.
    - injection R as <- _. inversion F1; subst. contradiction.
    - injection R as -> R. inversion F1; inversion F2; subst. eauto. }
  destruct r1 as [t1|], r2 as [t2|]; simpl; auto.
  - intros (b1 & a1 & -> & N1 & F1) (b2 & a2 & E & N2 & F2).
    f_equal. eapply A; eauto.
  - intros (b1 & a1 & -> & N1 & F1) F. exfalso. apply N1.
    rewrite Forall_forall in F. apply F. apply in_or_app. right. now left.
  - intros F (b2 & a2 & -> & N2 & F2). exfalso. apply N2.
    rewrite Forall_forall in F. apply F. apply in_or_app. right. now left.
Qed.

(* ================================================================= *)
(** ** [extract_solution] on strings *)

Lemma last_n_short (A : Type) (n : nat) (l : list A) :
  length l <= n -> last_n n l = l.
Proof.
  intros H. unfold last_n. replace (length l - n) with 0 by lia. reflexivity.
Qed.

Lemma last_n_length (A : Type) (n : nat) (l : list A) :
  length (last_n n l) = Nat.min (length l) n.
Proof. unfold last_n. rewrite length_skipn. lia. Qed.

Lemma last_n_idem (A : Type) (n : nat) (l : list A) :
  last_n n (last_n n l) = last_n n l.
Proof. apply last_n_short. rewrite last_n_length. lia. Qed.

Lemma last_n_suffix (A : Type) (n : nat) (l : list A) :
  exists pre, l = pre ++ last_n n l.
Proof.
  exists (firstn (length l - n) l). unfold last_n.
  symmetry. apply firstn_skipn.
Qed.

Lemma replace_strip (tok : str) :
  replace_char (ord "$") [] (replace_char (ord ",") [] tok)
  = strip_separators tok.
Proof.
  unfold replace_char, strip_separators.
  induction tok as [|c tok IH]; [reflexivity|].
  cbn [flat_map filter]. destruct (N.eqb c (ord ",")) eqn:E1; cbn [negb andb app].
  - exact IH.
  - cbn [flat_map]. destruct (N.eqb c (ord "$")); cbn [negb app];
      rewrite IH; reflexivity.
Qed.

Lemma extract_solution_invalid (v : pyval) (m : str) :
  str_in m [lit "strict"; lit "flexible"] = false ->
  extract_solution v m = Raise (ValueError (BadMethod m)).
Proof. intros H. unfold extract_solution. now rewrite H. Qed.

Lemma str_in_valid (m : str) :
  str_in m [lit "strict"; lit "flexible"] = true <-> valid_method m.
Proof. rewrite str_in_In. unfold valid_method. simpl. intuition congruence. Qed.

Lemma extract_solution_strict (text : str) :
  extract_solution (PyStr text) (lit "strict") =
  Ok match findall _STRICT_ANSWER_PATTERN (last_n _SOLUTION_CLIP_CHARS text) with
     | [] => None
     | (_ :: _) as solutions => Some (strip_separators (last solutions []))
     end.
Proof.
  unfold extract_solution.
  change (str_in (lit "strict") [lit "strict"; lit "flexible"]) with true.
  change (str_eqb (lit "strict") (lit "strict")) with true.
  cbn [negb]. destruct text as [|c t]; [reflexivity|].
  cbn [truthy is_nil negb py_len bind].
  destruct (_SOLUTION_CLIP_CHARS <? length (c :: t)) eqn:E;
    cbn [py_slice_last bind re_findall].
  - destruct (findall _ _); cbn [is_nil]; [reflexivity|].
    now rewrite replace_strip.
  - apply Nat.ltb_ge in E. rewrite (last_n_short _ _ _ E).
    destruct (findall _ _); cbn [is_nil]; [reflexivity|].
    now rewrite replace_strip.
Qed.

Lemma extract_solution_flexible (text : str) :
  extract_solution (PyStr text) (lit "flexible") =
  Ok (first_valid
        (rev (findall _FLEXIBLE_ANSWER_PATTERN
                (last_n _SOLUTION_CLIP_CHARS text)))).
Proof.
  unfold extract_solution.
  change (str_in (lit "flexible") [lit "strict"; lit "flexible"]) with true.
  change (str_eqb (lit "flexible") (lit "strict")) with false.
  change (str_eqb (lit "flexible") (lit "flexible")) with true.
  cbn [negb]. destruct text as [|c t]; [reflexivity|].
  cbn [truthy is_nil negb py_len bind].
  destruct (_SOLUTION_CLIP_CHARS <? length (c :: t)) eqn:E;
    cbn [py_slice_last bind re_findall].
  - destruct (findall _ _); reflexivity.
  - apply Nat.ltb_ge in E. rewrite (last_n_short _ _ _ E).
    destruct (findall _ _); reflexivity.
Qed.

(** On a string and a valid method [extract_solution] returns. *)
Lemma extract_solution_returns (text m : str) :
  valid_method m -> exists r, extract_solution (PyStr text) m = Ok r.
Proof.
  intros [-> | ->];
    [rewrite extract_solution_strict | rewrite extract_solution_flexible];
    eauto.
Qed.

Lemma suffix_is_last_n (A : Type) (n : nat) (t pre s : list A) :
  t = pre ++ s -> length s = Nat.min (length t) n -> s = last_n n t.
Proof.
  intros -> Hl. rewrite length_app in Hl. unfold last_n.
  rewrite length_app, skipn_app.
  destruct (Nat.le_gt_cases (length pre + length s) n) as [H|H].
  - assert (length pre = 0) by lia. destruct pre; [|discriminate].
    simpl. now replace (length s - n) with 0 by lia.
  - replace (length pre + length s - n) with (length pre) by lia.
    now rewrite skipn_all, Nat.sub_diag.
Qed.

(* ================================================================= *)
(** ** The score of one answer *)

Lemma compute_score_cases_aux (c g m : str) (format_reward correct_reward : float) :
  c <> [] -> g <> [] ->
  (extract_solution (PyStr c) m = Ok None ->
   compute_score (PyStr c) (PyStr g) m format_reward correct_reward
   = Ok REWARD_NO_ANSWER) /\
  (forall a, extract_solution (PyStr c) m = Ok (Some a) -> a = g ->
   compute_score (PyStr c) (PyStr g) m format_reward correct_reward
   = Ok correct_reward) /\
  (forall a, extract_solution (PyStr c) m = Ok (Some a) -> a <> g ->
   compute_score (PyStr c) (PyStr g) m format_reward correct_reward
   = Ok format_reward).
Proof.
  intros Hc Hg.
  assert (E : forall fr cr,
             compute_score (PyStr c) (PyStr g) m fr cr =
             answer <- extract_solution (PyStr c) m ;;
             match answer with
             | None => Ok REWARD_NO_ANSWER
             | Some a => if str_eqb a g then Ok cr else Ok fr
             end).
  { intros fr cr. unfold compute_score.
    destruct c; [congruence|]. destruct g; [congruence|]. reflexivity. }
  repeat split.
  - intros H. now rewrite E, H.
  - intros a H ->. rewrite E, H. cbn [bind]. now rewrite str_eqb_refl.
  - intros a H Hne. rewrite E, H. cbn [bind].
    apply str_eqb_neq in Hne. now rewrite Hne.
Qed.

(** C1: when the completion and the ground truth are both non-empty,
    [compute_score] returns [REWARD_NO_ANSWER] (-0.3) if [extract_solution]
    finds nothing, the [score] argument (1.0 by default) if the extracted
    token is the ground truth, string for string, and the [format_score]
    argument (0.3 by default) if it is another token. *)
Theorem compute_score_cases (c g m : str) (format_reward correct_reward : float) :
  c <> [] -> g <> [] ->
  (extract_solution (PyStr c) m = Ok None ->
   compute_score (PyStr c) (PyStr g) m format_reward correct_reward
   = Ok REWARD_NO_ANSWER) /\
  (forall a, extract_solution (PyStr c) m = Ok (Some a) -> a = g ->
   compute_score (PyStr c) (PyStr g) m format_reward correct_reward
   = Ok correct_reward) /\
  (forall a, extract_solution (PyStr c) m = Ok (Some a) -> a <> g ->
   compute_score (PyStr c) (PyStr g) m format_reward correct_reward
   = Ok format_reward) /\
  REWARD_NO_ANSWER = (-0.3)%float /\
  compute_score_default (PyStr c) (PyStr g) m
  = compute_score (PyStr c) (PyStr g) m 0.3%float 1.0%float.
Proof.
  intros Hc Hg.
  destruct (compute_score_cases_aux c g m format_reward correct_reward Hc Hg)
    as (H1 & H2 & H3).
  repeat split; assumption.
Qed.

Lemma compute_score_cases_witness :
  lit "#### 42" <> [] /\ lit "42" <> [] /\
  compute_score (PyStr (lit "#### 42")) (PyStr (lit "42")) (lit "strict")
    0.3%float 1.0%float = Ok 1.0%float.
Proof.
  split; [discriminate|]. split; [discriminate|].
  refine (proj1 (proj2 (compute_score_cases (lit "#### 42") (lit "42")
                          (lit "strict") 0.3 1.0 _ _))
            (lit "42") _ _).
  - discriminate.
  - discriminate.
  - vm_compute. reflexivity.
  - reflexivity.
Defined.

(** C5: only the last 300 characters of the text are looked at:
    [extract_solution] gives on a text what it gives on the suffix of the
    text that is [min (len text) 300] characters long. *)
Theorem extract_clip (t s m : str) :
  (exists pre, t = pre ++ s) ->
  length s = Nat.min (length t) 300 ->
  extract_solution (PyStr t) m = extract_solution (PyStr s) m.
Proof.
  intros [pre Hp] Hl.
  pose proof (suffix_is_last_n _ 300 _ _ _ Hp Hl) as ->.
  destruct (str_in m [lit "strict"; lit "flexible"]) eqn:Hm.
  - apply str_in_valid in Hm as [-> | ->].
    + rewrite !extract_solution_strict. unfold _SOLUTION_CLIP_CHARS.
      now rewrite last_n_idem.
    + rewrite !extract_solution_flexible. unfold _SOLUTION_CLIP_CHARS.
      now rewrite last_n_idem.
  - now rewrite !extract_solution_invalid.
Qed.

Lemma extract_clip_witness :
  extract_solution (PyStr (lit "#### 42" ++ repeat (ord " ") 300))
    (lit "strict")
  = extract_solution (PyStr (repeat (ord " ") 300)) (lit "strict").
Proof.
  apply extract_clip.
  - exists (lit "#### 42"). reflexivity.
  - vm_compute. reflexivity.
Defined.

(** C6: on the empty text, and on [None], [extract_solution] finds nothing,
    in either mode; and [compute_score] returns [REWARD_NO_ANSWER] (-0.3) as soon as
    the completion or the ground truth is empty, whatever the method and the
    reward arguments: the extraction, which would raise on a wrong method,
    is not run. *)
Theorem empty_inputs :
  (forall m, valid_method m -> extract_solution (PyStr []) m = Ok None) /\
  (forall m, valid_method m -> extract_solution PyNone m = Ok None) /\
  (forall c g m format_reward correct_reward,
      c = [] \/ g = [] ->
      compute_score (PyStr c) (PyStr g) m format_reward correct_reward
      = Ok REWARD_NO_ANSWER) /\
  REWARD_NO_ANSWER = (-0.3)%float.
Proof.
  repeat split.
  - intros m [-> | ->]; reflexivity.
  - intros m [-> | ->]; reflexivity.
  - intros c g m fr cr [-> | ->]; unfold compute_score.
    + reflexivity.
    + cbn [truthy is_nil negb]. now rewrite orb_true_r.
Qed.

Lemma empty_inputs_witness :
  extract_solution (PyStr []) (lit "flexible") = Ok None /\
  compute_score (PyStr []) (PyStr (lit "42")) (lit "loose") 0.3%float 1.0%float
  = Ok REWARD_NO_ANSWER /\
  extract_solution (PyStr []) (lit "loose")
  = Raise (ValueError (BadMethod (lit "loose"))).
Proof.
  split; [|split].
  - apply (proj1 empty_inputs). right. reflexivity.
  - apply (proj1 (proj2 (proj2 empty_inputs))). left. reflexivity.
  - reflexivity.
Defined.

(** C7: with a method that is neither "strict" nor "flexible",
    [extract_solution] raises a [ValueError] whatever the text is, and the
    error reaches the caller: [compute_score], which has no handler, raises
    it too once its arguments have passed the emptiness test. *)
Theorem extract_invalid_method (v : pyval) (m : str) :
  ~ valid_method m ->
  extract_solution v m = Raise (ValueError (BadMethod m)) /\
  (forall g format_reward correct_reward,
      truthy v = true -> truthy g = true ->
      compute_score v g m format_reward correct_reward
      = Raise (ValueError (BadMethod m))).
Proof.
  intros Hm.
  assert (E : extract_solution v m = Raise (ValueError (BadMethod m))).
  { apply extract_solution_invalid.
    destruct (str_in m _) eqn:H; [|reflexivity].
    apply str_in_valid in H. contradiction. }
  split; [exact E|].
  intros g fr cr Hv Hg. unfold compute_score. now rewrite Hv, Hg, E.
Qed.

Lemma extract_invalid_method_witness :
  extract_solution (PyStr (lit "#### 42")) (lit "loose")
  = Raise (ValueError (BadMethod (lit "loose"))).
Proof.
  apply (extract_invalid_method (PyStr (lit "#### 42")) (lit "loose")).
  intros [H | H]; discriminate H.
Defined.

(* ================================================================= *)
(** ** Strict extraction *)

Lemma strict_occ_suffix (pre w : str) (i : nat) (tok : str) :
  strict_occ w i tok -> strict_occ (pre ++ w) (length pre + i) tok.
Proof.
  intros (p & post & -> & <- & Ht & Hp).
  exists (pre ++ p), post. repeat split; auto.
  - now rewrite <- app_assoc.
  - apply length_app.
Qed.

Lemma strict_occ_offsets (s : str) (i : nat) (tok : str) :
  strict_occ s i tok -> In i (strict_offsets s).
Proof.
  intros H. apply strict_occ_iff in H as (Hi & rest & H).
  unfold strict_offsets. apply filter_In. split.
  - apply in_seq. lia.
  - now rewrite H.
Qed.

(** C2, as the code has it: the occurrences of [#### <number>] that count
    are those of the last 300 characters of the text.  When there is one,
    [extract_solution] in strict mode returns the number of the last of
    them, commas and dollar signs taken out; when there is none, and so
    when the whole text has none, it returns [None].  On
    ["The answer is #### 1,200"] it returns ["1200"]. *)
Theorem extract_strict_last_occurrence (text : str) :
  (forall i tok,
      strict_occ (last_n 300 text) i tok ->
      (forall j tok', strict_occ (last_n 300 text) j tok' -> j <= i) ->
      extract_solution (PyStr text) (lit "strict")
      = Ok (Some (strip_separators tok))) /\
  ((forall i tok, ~ strict_occ (last_n 300 text) i tok) ->
   extract_solution (PyStr text) (lit "strict") = Ok None) /\
  ((forall i tok, ~ strict_occ text i tok) ->
   extract_solution (PyStr text) (lit "strict") = Ok None) /\
  extract_solution (PyStr (lit "The answer is #### 1,200")) (lit "strict")
  = Ok (Some (lit "1200")).
Proof.
  rewrite extract_solution_strict, findall_strict.
  unfold _SOLUTION_CLIP_CHARS.
  assert (Hnone : (forall i tok, ~ strict_occ (last_n 300 text) i tok) ->
                  Ok match strict_tokens (last_n 300 text) with
                     | [] => None
                     | (_ :: _) as solutions =>
                         Some (strip_separators (last solutions []))
                     end = Ok (@None str)).
  { intros H. now rewrite (strict_tokens_none _ H). }
  split; [|split; [exact Hnone|split]].
  - intros i tok Hocc Hmax.
    destruct (strict_tokens_last _ _ _ Hocc Hmax) as [Hne <-].
    destruct (strict_tokens (last_n 300 text)); [congruence | reflexivity].
  - intros H. apply Hnone. intros i tok Hocc.
    destruct (last_n_suffix _ 300 text) as [pre E].
    apply (strict_occ_suffix pre) in Hocc. rewrite <- E in Hocc.
    exact (H _ _ Hocc).
  - vm_compute. reflexivity.
Qed.

Lemma extract_strict_last_occurrence_witness :
  strict_occ (last_n 300 (lit "The answer is #### 1,200")) 14 (lit "1,200") /\
  extract_solution (PyStr (lit "The answer is #### 1,200")) (lit "strict")
  = Ok (Some (strip_separators (lit "1,200"))).
Proof.
  assert (Hocc : strict_occ (last_n 300 (lit "The answer is #### 1,200")) 14
                   (lit "1,200")).
  { apply strict_occ_iff. split; [vm_compute; lia|].
    exists []. vm_compute. reflexivity. }
  split; [exact Hocc|].
  apply (proj1 (extract_strict_last_occurrence
                  (lit "The answer is #### 1,200")) 14 (lit "1,200") Hocc).
  intros j tok' H. apply strict_occ_offsets in H. vm_compute in H.
  destruct H as [<- | []]. lia.
Defined.

(** C2, as the specification words it, fails on a text whose only
    occurrence lies before the last 300 characters: the text has an
    occurrence, and it is the last one, yet nothing is returned. *)
Lemma extract_strict_clipped_counterexample :
  strict_occ (lit "#### 42" ++ repeat (ord " ") 300) 0 (lit "42") /\
  (forall j tok',
      strict_occ (lit "#### 42" ++ repeat (ord " ") 300) j tok' -> j <= 0) /\
  extract_solution (PyStr (lit "#### 42" ++ repeat (ord " ") 300))
    (lit "strict") = Ok None /\
  extract_solution (PyStr (lit "#### 42" ++ repeat (ord " ") 300))
    (lit "strict") <> Ok (Some (strip_separators (lit "42"))).
Proof.
  split; [|split; [|split]].
  - apply strict_occ_0. exists (repeat (ord " ") 300). vm_compute. reflexivity.
  - intros j tok' H. apply strict_occ_offsets in H. vm_compute in H.
    destruct H as [<- | []]. lia.
  - vm_compute. reflexivity.
  - vm_compute. discriminate.
Qed.

(** C9: strict mode has no test against the invalid answers of flexible
    mode.  On ["#### ."] it returns ["."], which flexible mode refuses, and on
    ["#### ,"] it returns the empty string, what is left of [","] once the
    comma is taken out; [compute_score] then returns the [format_score]
    argument, not [REWARD_NO_ANSWER]. *)
Theorem strict_keeps_placeholders :
  extract_solution (PyStr (lit "#### .")) (lit "strict") = Ok (Some (lit "."))
  /\ extract_solution (PyStr (lit "#### ,")) (lit "strict") = Ok (Some (lit ""))
  /\ In (lit ".") _INVALID_ANSWERS /\ In (lit "") _INVALID_ANSWERS
  /\ extract_solution (PyStr (lit "#### .")) (lit "flexible") = Ok None
  /\ (forall g format_reward correct_reward,
         g <> [] -> g <> lit "." ->
         compute_score (PyStr (lit "#### .")) (PyStr g) (lit "strict")
           format_reward correct_reward = Ok format_reward)
  /\ (forall g format_reward correct_reward,
         g <> [] ->
         compute_score (PyStr (lit "#### ,")) (PyStr g) (lit "strict")
           format_reward correct_reward = Ok format_reward)
  /\ compute_score_default (PyStr (lit "#### .")) (PyStr (lit "42"))
       (lit "strict") = Ok REWARD_FORMAT_CORRECT
  /\ compute_score_default (PyStr (lit "#### ,")) (PyStr (lit "42"))
       (lit "strict") = Ok REWARD_FORMAT_CORRECT.
Proof.
  assert (E1 : extract_solution (PyStr (lit "#### .")) (lit "strict")
               = Ok (Some (lit "."))) by (vm_compute; reflexivity).
  assert (E2 : extract_solution (PyStr (lit "#### ,")) (lit "strict")
               = Ok (Some (lit ""))) by (vm_compute; reflexivity).
  repeat match goal with |- _ /\ _ => split end;
    try (vm_compute; reflexivity); try (simpl; tauto).
  - intros g fr cr Hg Hd.
    apply (proj2 (proj2
             (compute_score_cases_aux (lit "#### .") g (lit "strict") fr cr
                ltac:(discriminate) Hg)) _ E1).
    congruence.
  - intros g fr cr Hg.
    apply (proj2 (proj2
             (compute_score_cases_aux (lit "#### ,") g (lit "strict") fr cr
                ltac:(discriminate) Hg)) _ E2).
    intros <-. apply Hg. reflexivity.
Qed.

Lemma strict_keeps_placeholders_witness :
  compute_score (PyStr (lit "#### .")) (PyStr (lit "42")) (lit "strict")
    0.3%float 1.0%float = Ok 0.3%float /\
  compute_score (PyStr (lit "#### ,")) (PyStr (lit "42")) (lit "strict")
    0.3%float 1.0%float = Ok 0.3%float.
Proof.
  destruct strict_keeps_placeholders as (_ & _ & _ & _ & _ & H1 & H2 & _).
  split.
  - apply H1; discriminate.
  - apply H2; discriminate.
Defined.

(* ================================================================= *)
(** ** Flexible extraction *)

(** C4: in flexible mode [extract_solution] cuts the last 300 characters of
    the text into its signed numeric tokens, goes through them from the last
    one back, and returns the first that is neither [""] nor ["."], [None]
    when there is no such token. *)
Theorem extract_flexible_spec (text : str) :
  (exists toks, tokenizes (last_n 300 text) toks) /\
  (forall toks,
      tokenizes (last_n 300 text) toks ->
      exists r,
        extract_solution (PyStr text) (lit "flexible") = Ok r /\
        last_valid_of toks r /\
        (forall r', last_valid_of toks r' -> r' = r)).
Proof.
  split.
  - exists (findall _FLEXIBLE_ANSWER_PATTERN (last_n 300 text)).
    now apply tokenizes_iff.
  - intros toks H. apply tokenizes_iff in H.
    exists (first_valid (rev toks)). rewrite extract_solution_flexible.
    unfold _SOLUTION_CLIP_CHARS. rewrite H.
    pose proof (first_valid_rev toks) as Hl. repeat split; auto.
    intros r' Hr'. exact (last_valid_of_unique _ _ _ Hr' Hl).
Qed.

Lemma extract_flexible_spec_witness :
  tokenizes (last_n 300 (lit "x = 12, y = -3.5 ."))
    [lit "12,"; lit "-3.5"; lit "."] /\
  extract_solution (PyStr (lit "x = 12, y = -3.5 .")) (lit "flexible")
  = Ok (Some (lit "-3.5")).
Proof.
  assert (Ht : tokenizes (last_n 300 (lit "x = 12, y = -3.5 ."))
                 [lit "12,"; lit "-3.5"; lit "."]).
  { apply tokenizes_iff. vm_compute. reflexivity. }
  split; [exact Ht|].
  destruct (proj2 (extract_flexible_spec (lit "x = 12, y = -3.5 .")) _ Ht)
    as (r & -> & _ & Hu).
  f_equal. symmetry. apply Hu.
  exists [lit "12,"], [lit "."]. split; [reflexivity|]. split.
  - intros [H | [H | []]]; discriminate H.
  - constructor; [|constructor]. right. left. reflexivity.
Defined.

(* ================================================================= *)
(** ** The batch *)

Lemma score_loop_Ok (pairs : list (pyval * pyval)) (rs acc : list float) :
  Forall2 scored pairs rs -> score_loop pairs acc = Ok (acc ++ rs).
Proof.
  intros H. revert acc.
  induction H as [|[a gt] r pairs rs Hr _ IH]; intros acc; cbn [score_loop].
  - now rewrite app_nil_r.
  - unfold scored in Hr. cbn [fst snd] in Hr. rewrite Hr. cbn [bind].
    rewrite IH, <- app_assoc. reflexivity.
Qed.

Lemma score_loop_inv (pairs : list (pyval * pyval)) (acc rs : list float) :
  score_loop pairs acc = Ok rs ->
  exists rs', rs = acc ++ rs' /\ Forall2 scored pairs rs'.
Proof.
  revert acc; induction pairs as [|[a gt] pairs IH]; intros acc;
    cbn [score_loop].
  - intros H; injection H as <-. exists []. now rewrite app_nil_r.
  - destruct (compute_score a gt _ _ _) as [r|e] eqn:E; [|discriminate].
    cbn [bind]. intros H. apply IH in H as (rs' & -> & F).
    exists (r :: rs'). rewrite <- app_assoc. split; [reflexivity|].
    constructor; assumption.
Qed.

Lemma score_loop_Raise (pairs : list (pyval * pyval)) (acc : list float) :
  Exists (fun p => exists e,
              compute_score (fst p) (snd p) (lit "strict")
                REWARD_FORMAT_CORRECT REWARD_CORRECT = Raise e) pairs ->
  exists e, score_loop pairs acc = Raise e.
Proof.
  revert acc; induction pairs as [|[a gt] pairs IH]; intros acc H.
  - inversion H.
  - cbn [score_loop].
    destruct (compute_score a gt _ _ _) as [r|e] eqn:E; cbn [bind].
    + apply IH. inversion H as [? ? [e He]|]; subst; [|assumption].
      cbn [fst snd] in He. congruence.
    + eauto.
Qed.

Lemma compute_score_str_returns (c g : str) :
  exists r, scored (PyStr c, PyStr g) r.
Proof.
  unfold scored, compute_score. cbn [fst snd].
  destruct (negb (truthy (PyStr c)) || negb (truthy (PyStr g)))%bool;
    [eauto|].
  rewrite extract_solution_strict. cbn [bind].
  destruct (findall _ _); [eauto|].
  destruct (str_eq_val _ _); eauto.
Qed.

Lemma scored_all_strings (cs gs : list str) :
  exists rs, Forall2 scored (combine (map PyStr cs) (map PyStr gs)) rs.
Proof.
  revert gs; induction cs as [|c cs IH]; intros gs.
  - exists []. constructor.
  - destruct gs as [|g gs]; [exists []; constructor|].
    destruct (IH gs) as [rs F]. destruct (compute_score_str_returns c g) as [r Hr].
    exists (r :: rs). now constructor.
Qed.

Lemma Forall2_nth (A B : Type) (P : A -> B -> Prop) (l : list A) (l' : list B)
    (i : nat) (a : A) :
  Forall2 P l l' -> nth_error l i = Some a ->
  exists b, nth_error l' i = Some b /\ P a b.
Proof.
  intros F. revert i. induction F as [|x y l l' Hxy _ IH]; intros [|i]; simpl;
    try discriminate.
  - intros H; injection H as <-. eauto.
  - apply IH.
Qed.

Lemma nth_error_combine (A B : Type) (l : list A) (l' : list B) (i : nat)
    (a : A) (b : B) :
  nth_error l i = Some a -> nth_error l' i = Some b ->
  nth_error (combine l l') i = Some (a, b).
Proof.
  revert l' i; induction l as [|x l IH]; intros [|y l'] [|i]; simpl;
    try discriminate.
  - congruence.
  - apply IH.
Qed.

Lemma trl_reward_fn_mismatch (prompts completions solution : list pyval) :
  length completions <> length solution ->
  trl_reward_fn prompts completions solution
  = Raise (ValueError (LengthMismatch (length completions) (length solution))).
Proof.
  intros H. unfold trl_reward_fn. apply Nat.eqb_neq in H. now rewrite H.
Qed.

(** C3: [trl_reward_fn] raises a [ValueError] when the two lists differ in
    length and returns the empty list on empty lists; on lists of strings of
    one length it returns one reward for each pair, in the order of the
    lists: what [compute_score] returns on the pair in strict mode with the
    reward constants of the module. *)
Theorem trl_reward_fn_spec (prompts : list pyval) (cs gs : list str) :
  (length cs <> length gs ->
   trl_reward_fn prompts (map PyStr cs) (map PyStr gs)
   = Raise (ValueError (LengthMismatch (length cs) (length gs)))) /\
  (forall completions solution,
      length completions <> length solution ->
      exists m, trl_reward_fn prompts completions solution
                = Raise (ValueError m)) /\
  trl_reward_fn prompts [] [] = Ok [] /\
  (length cs = length gs ->
   exists rs,
     trl_reward_fn prompts (map PyStr cs) (map PyStr gs) = Ok rs /\
     length rs = length cs /\
     forall i c g,
       nth_error cs i = Some c -> nth_error gs i = Some g ->
       exists r,
         nth_error rs i = Some r /\
         compute_score (PyStr c) (PyStr g) (lit "strict")
           REWARD_FORMAT_CORRECT REWARD_CORRECT = Ok r).
Proof.
  split; [|split; [|split; [reflexivity|]]].
  - intros H. rewrite trl_reward_fn_mismatch; rewrite !length_map; auto.
  - intros completions solution H. rewrite trl_reward_fn_mismatch; eauto.
  - intros Hlen. destruct (scored_all_strings cs gs) as [rs F].
    exists rs. split; [|split].
    + unfold trl_reward_fn. rewrite !length_map, Hlen, Nat.eqb_refl.
      cbn [negb]. destruct cs as [|c cs].
      * destruct gs; [|discriminate]. inversion F. reflexivity.
      * cbn [map is_nil]. change (PyStr c :: map PyStr cs) with (map PyStr (c :: cs)).
        now rewrite (score_loop_Ok _ _ _ F).
    + apply Forall2_length in F. rewrite <- F, length_combine, !length_map. lia.
    + intros i c g Hc Hg.
      assert (Hn : nth_error (combine (map PyStr cs) (map PyStr gs)) i
                   = Some (PyStr c, PyStr g)).
      { apply nth_error_combine; now apply map_nth_error. }
      destruct (Forall2_nth _ _ _ _ _ _ _ F Hn) as (r & Hr & Hs). eauto.
Qed.

Lemma trl_reward_fn_spec_witness :
  trl_reward_fn [] (map PyStr [lit "#### 42"; lit "#### 24"])
    (map PyStr [lit "42"; lit "24"]) = Ok [1.0%float; 1.0%float] /\
  trl_reward_fn [] (map PyStr [lit "#### 42"]) (map PyStr [])
  = Raise (ValueError (LengthMismatch 1 0)).
Proof.
  split.
  - destruct (proj2 (proj2 (proj2 (trl_reward_fn_spec []
                              [lit "#### 42"; lit "#### 24"]
                              [lit "42"; lit "24"]))) eq_refl)
      as (rs & -> & Hl & Hn).
    destruct rs as [|r0 [|r1 [|r2 rs]]]; try discriminate Hl.
    destruct (Hn 0 _ _ eq_refl eq_refl) as (x0 & E0 & S0).
    destruct (Hn 1 _ _ eq_refl eq_refl) as (x1 & E1 & S1).
    injection E0 as <-. injection E1 as <-.
    vm_compute in S0. vm_compute in S1.
    injection S0 as <-. injection S1 as <-. reflexivity.
  - apply (proj1 (trl_reward_fn_spec [] [lit "#### 42"] [])). discriminate.
Defined.

Lemma nth_error_Exists (A : Type) (P : A -> Prop) (l : list A) (i : nat) (a : A) :
  nth_error l i = Some a -> P a -> Exists P l.
Proof.
  intros H Ha. apply Exists_exists. exists a. split; [|exact Ha].
  eapply nth_error_In; eauto.
Qed.

(** C8: when the two lists have one length and are not empty, and scoring
    one of the pairs raises an exception, [trl_reward_fn] raises nothing: it
    returns [REWARD_NO_ANSWER] (-0.3) for every element of the batch, the
    rewards of the pairs scored before the failure being dropped. *)
Theorem trl_reward_fn_fallback (prompts completions solution : list pyval) :
  completions <> [] ->
  length completions = length solution ->
  (exists i c g e,
      nth_error completions i = Some c /\ nth_error solution i = Some g /\
      compute_score c g (lit "strict") REWARD_FORMAT_CORRECT REWARD_CORRECT
      = Raise e) ->
  trl_reward_fn prompts completions solution
  = Ok (repeat REWARD_NO_ANSWER (length completions)) /\
  length (repeat REWARD_NO_ANSWER (length completions)) = length completions /\
  REWARD_NO_ANSWER = (-0.3)%float.
Proof.
  intros Hne Hlen (i & c & g & e & Hc & Hg & He).
  split; [|split; [apply repeat_length | reflexivity]].
  unfold trl_reward_fn. rewrite Hlen, Nat.eqb_refl. cbn [negb].
  destruct completions as [|c0 cs]; [congruence|]. cbn [is_nil].
  destruct (score_loop_Raise (combine (c0 :: cs) solution) []) as [e' ->].
  - apply (nth_error_Exists _ _ _ i (c, g)).
    + now apply nth_error_combine.
    + exists e. exact He.
  - now rewrite <- Hlen.
Qed.

Lemma trl_reward_fn_fallback_witness :
  compute_score (PyStr (lit "#### 42")) (PyStr (lit "42")) (lit "strict")
    REWARD_FORMAT_CORRECT REWARD_CORRECT = Ok REWARD_CORRECT /\
  compute_score (PyInt 5) (PyStr (lit "5")) (lit "strict")
    REWARD_FORMAT_CORRECT REWARD_CORRECT = Raise (TypeError NoLen) /\
  trl_reward_fn [] [PyStr (lit "#### 42"); PyInt 5]
    [PyStr (lit "42"); PyStr (lit "5")]
  = Ok [REWARD_NO_ANSWER; REWARD_NO_ANSWER].
Proof.
  split; [vm_compute; reflexivity|]. split; [reflexivity|].
  apply (trl_reward_fn_fallback [] [PyStr (lit "#### 42"); PyInt 5]
           [PyStr (lit "42"); PyStr (lit "5")]).
  - discriminate.
  - reflexivity.
  - exists 1, (PyInt 5), (PyStr (lit "5")), (TypeError NoLen).
    repeat split; reflexivity.
Defined.

(* ================================================================= *)
(** ** The rewards that can come out *)

Lemma default_reward_not_wrong (r : float) :
  default_reward r -> r <> REWARD_WRONG /\ PrimFloat.eqb r REWARD_WRONG = false.
Proof.
  assert (W : PrimFloat.eqb REWARD_WRONG REWARD_WRONG = true) by reflexivity.
  intros [-> | [-> | ->]]; (split; [|reflexivity]); intros H;
    rewrite <- H in W at 1; vm_compute in W; discriminate W.
Qed.

(** [compute_score] has three [return] statements and no arithmetic. *)
Lemma compute_score_range (v g : pyval) (m : str) (fr cr r : float) :
  compute_score v g m fr cr = Ok r ->
  r = REWARD_NO_ANSWER \/ r = fr \/ r = cr.
Proof.
  unfold compute_score.
  destruct (negb (truthy v) || negb (truthy g))%bool.
  - intros H; injection H as <-. auto.
  - destruct (extract_solution v m) as [[a|]|e]; cbn [bind];
      [destruct (str_eq_val a g)| |discriminate];
      intros H; injection H as <-; auto.
Qed.

Lemma compute_score_default_range (v g : pyval) (m : str) (r : float) :
  compute_score_default v g m = Ok r -> default_reward r.
Proof. apply compute_score_range. Qed.

Lemma trl_reward_fn_range (prompts completions solution : list pyval)
    (rs : list float) :
  trl_reward_fn prompts completions solution = Ok rs ->
  Forall default_reward rs.
Proof.
  unfold trl_reward_fn.
  destruct (negb (length completions =? length solution)); [discriminate|].
  destruct (is_nil completions).
  - intros H; injection H as <-. constructor.
  - destruct (score_loop _ _) as [rewards|e] eqn:E; intros H; injection H as <-.
    + apply score_loop_inv in E as (rs' & -> & F). cbn [app].
      induction F as [|p r ps rs' Hp _ IH]; constructor; [|exact IH].
      exact (compute_score_default_range _ _ _ _ Hp).
    + apply Forall_forall. intros r Hr. apply repeat_spec in Hr. subst r.
      left. reflexivity.
Qed.

(** C10: with its reward arguments at their defaults, [compute_score]
    returns, on two strings and a valid method, one of -0.3, 0.3 and 1.0, each
    of which it does return on some input; whatever its other arguments are,
    a value it returns is one of the three, and so are the rewards
    [trl_reward_fn] returns: [REWARD_WRONG] (0.0) is never among them.  With
    reward arguments of the caller's, what is returned is [REWARD_NO_ANSWER]
    or one of the two arguments. *)
Theorem default_rewards_only :
  (forall c g m,
      valid_method m ->
      exists r, compute_score_default (PyStr c) (PyStr g) m = Ok r /\
                default_reward r) /\
  (forall v g m r,
      compute_score_default v g m = Ok r ->
      default_reward r /\ r <> REWARD_WRONG /\
      PrimFloat.eqb r REWARD_WRONG = false) /\
  (forall prompts completions solution rs,
      trl_reward_fn prompts completions solution = Ok rs ->
      Forall (fun r => default_reward r /\ r <> REWARD_WRONG /\
                       PrimFloat.eqb r REWARD_WRONG = false) rs) /\
  (forall v g m format_reward correct_reward r,
      compute_score v g m format_reward correct_reward = Ok r ->
      r = REWARD_NO_ANSWER \/ r = format_reward \/ r = correct_reward) /\
  (forall r, default_reward r <->
             r = (-0.3)%float \/ r = 0.3%float \/ r = 1.0%float) /\
  REWARD_WRONG = 0.0%float /\
  compute_score_default (PyStr (lit "no answer here")) (PyStr (lit "42"))
    (lit "strict") = Ok (-0.3)%float /\
  compute_score_default (PyStr (lit "#### 41")) (PyStr (lit "42"))
    (lit "strict") = Ok 0.3%float /\
  compute_score_default (PyStr (lit "#### 42")) (PyStr (lit "42"))
    (lit "strict") = Ok 1.0%float.
Proof.
  repeat match goal with |- _ /\ _ => split end;
    try (vm_compute; reflexivity).
  - intros c g m Hm.
    destruct (extract_solution_returns c m Hm) as [a Ha].
    assert (exists r, compute_score_default (PyStr c) (PyStr g) m = Ok r)
      as [r Hr].
    { unfold compute_score_default, compute_score.
      destruct (negb (truthy (PyStr c)) || negb (truthy (PyStr g)))%bool;
        [eauto|].
      rewrite Ha. cbn [bind]. destruct a; [|eauto].
      destruct (str_eq_val _ _); eauto. }
    exists r. split; [exact Hr|].
    exact (compute_score_default_range _ _ _ _ Hr).
  - intros v g m r H.
    pose proof (compute_score_default_range _ _ _ _ H) as Hd.
    destruct (default_reward_not_wrong _ Hd). auto.
  - intros ps cs gs rs H. apply trl_reward_fn_range in H.
    eapply Forall_impl; [|exact H].
    intros r Hd. destruct (default_reward_not_wrong _ Hd). auto.
  - apply compute_score_range.
  - intros r. reflexivity.
Qed.

Lemma default_rewards_only_witness :
  default_reward 0.3%float /\ 0.3%float <> REWARD_WRONG /\
  PrimFloat.eqb 0.3%float REWARD_WRONG = false.
Proof.
  apply (proj1 (proj2 default_rewards_only)
           (PyStr (lit "#### 41")) (PyStr (lit "42")) (lit "strict")).
  vm_compute. reflexivity.
Defined.

(* ================================================================= *)
(** ** What [findall] captures *)

Lemma numeric_token_chars (tok : str) :
  numeric_token tok ->
  Forall (fun c => c = ord "-" \/ num_set c = true) tok.
Proof.
  assert (A : forall body, forallb num_set body = true ->
                           Forall (fun c => c = ord "-" \/ num_set c = true) body).
  { intros body H. apply Forall_forall. intros c Hc.
    rewrite forallb_forall in H. auto. }
  intros [body _ H|body _ H]; [auto|]. constructor; auto.
Qed.

Lemma strict_tokens_In (s tok : str) :
  In tok (strict_tokens s) <-> exists i, strict_occ s i tok.
Proof.
  split.
  - induction s as [|c s IH]; [intros []|]. cbn [strict_tokens].
    destruct (strict_here (c :: s)) as [[t rest]|] eqn:E.
    + intros [<- | H].
      * exists 0. apply strict_occ_0. eauto.
      * destruct (IH H) as [i Hi]. exists (S i). now apply strict_occ_S.
    + intros H. destruct (IH H) as [i Hi]. exists (S i). now apply strict_occ_S.
  - intros [i H]. revert i H. induction s as [|c s IH]; intros i H.
    + apply strict_occ_iff in H as (_ & rest & H).
      rewrite skipn_nil in H. discriminate.
    + cbn [strict_tokens]. destruct i as [|i].
      * apply strict_occ_0 in H as [rest H]. rewrite H. now left.
      * apply strict_occ_S in H. apply IH in H.
        destruct (strict_here (c :: s)) as [[t rest]|]; [now right | exact H].
Qed.

Lemma tokenizes_In (s : str) (toks : list str) (tok : str) :
  tokenizes s toks -> In tok toks -> numeric_token tok /\ occurs_in tok s.
Proof.
  induction 1 as [|c s toks _ _ _ IH|t s toks Ht _ _ IH]; [intros []| |].
  - intros H. destruct (IH H) as (Hn & pre & post & ->).
    split; [exact Hn|]. now exists (c :: pre), post.
  - intros [<- | H].
    + split; [exact Ht|]. now exists [], s.
    + destruct (IH H) as (Hn & pre & post & ->).
      split; [exact Hn|]. exists (t ++ pre), post. now rewrite <- app_assoc.
Qed.

Lemma occurs_in_suffix (sub pre s : str) :
  occurs_in sub s -> occurs_in sub (pre ++ s).
Proof.
  intros (p & q & ->). exists (pre ++ p), q. now rewrite <- app_assoc.
Qed.

Lemma occurs_in_window (sub text : str) (n : nat) :
  occurs_in sub (last_n n text) -> occurs_in sub text.
Proof.
  intros H. destruct (last_n_suffix _ n text) as [pre E].
  rewrite E. now apply occurs_in_suffix.
Qed.

Lemma strict_occ_occurs (s : str) (i : nat) (tok : str) :
  strict_occ s i tok -> occurs_in (lit "#### " ++ tok) s.
Proof.
  intros (pre & post & -> & _). exists pre, post. now rewrite <- app_assoc.
Qed.

(** X1: every string [re.findall] returns for one of the two patterns is a
    signed numeric token that stands in the text searched; for the strict
    pattern it stands there right after the marker. *)
Theorem findall_captures_tokens (s tok : str) :
  (In tok (findall _FLEXIBLE_ANSWER_PATTERN s) ->
   numeric_token tok /\ tok <> [] /\ occurs_in tok s) /\
  (In tok (findall _STRICT_ANSWER_PATTERN s) ->
   numeric_token tok /\ tok <> [] /\ occurs_in (lit "#### " ++ tok) s).
Proof.
  split; intros H.
  - assert (T : tokenizes s (findall _FLEXIBLE_ANSWER_PATTERN s))
      by now apply tokenizes_iff.
    destruct (tokenizes_In _ _ _ T H) as [Hn Ho].
    repeat split; auto. now apply numeric_token_nonempty.
  - rewrite findall_strict in H. apply strict_tokens_In in H as [i H].
    pose proof (strict_occ_occurs _ _ _ H) as Ho.
    destruct H as (pre & post & _ & _ & Hn & _).
    repeat split; auto. now apply numeric_token_nonempty.
Qed.

Lemma findall_captures_tokens_witness :
  numeric_token (lit "-3.5") /\ occurs_in (lit "#### -3.5") (lit "so #### -3.5!").
Proof.
  destruct (proj2 (findall_captures_tokens (lit "so #### -3.5!") (lit "-3.5")))
    as (Hn & _ & Ho).
  - vm_compute. left. reflexivity.
  - split; [exact Hn | exact Ho].
Defined.

(* ================================================================= *)
(** ** The shape of an extracted answer *)

Lemma last_In (A : Type) (l : list A) (d : A) : l <> [] -> In (last l d) l.
Proof.
  induction l as [|x l IH]; [congruence|]. intros _.
  destruct l as [|y l]; [now left|].
  right. apply IH. discriminate.
Qed.

Lemma strip_separators_chars (tok : str) :
  Forall (fun c => c = ord "-" \/ num_set c = true) tok ->
  forallb answer_char (strip_separators tok) = true.
Proof.
  induction 1 as [|c tok Hc _ IH]; [reflexivity|].
  unfold strip_separators. cbn [filter].
  destruct (N.eqb c (ord ",")) eqn:E1; cbn [negb andb]; [exact IH|].
  destruct (N.eqb c (ord "$")) eqn:E2; cbn [negb]; [exact IH|].
  cbn [forallb]. apply andb_true_iff. split; [|exact IH].
  unfold answer_char. destruct Hc as [-> | Hc].
  - reflexivity.
  - unfold num_set in Hc. rewrite E1, orb_false_r in Hc.
    rewrite Hc. reflexivity.
Qed.

Lemma strip_separators_commas (tok : str) :
  Forall (fun c => c = ord "-" \/ num_set c = true) tok ->
  strip_separators tok = replace_char (ord ",") [] tok.
Proof.
  induction 1 as [|c tok Hc _ IH]; [reflexivity|].
  unfold strip_separators, replace_char. cbn [filter flat_map].
  destruct (N.eqb c (ord ",")) eqn:E1; cbn [negb andb app]; [exact IH|].
  destruct (N.eqb c (ord "$")) eqn:E2; cbn [negb].
  - apply N.eqb_eq in E2. subst c. destruct Hc as [Hc | Hc]; discriminate Hc.
  - f_equal. exact IH.
Qed.

Lemma extract_strict_Some (text a : str) :
  extract_solution (PyStr text) (lit "strict") = Ok (Some a) ->
  exists i tok,
    strict_occ (last_n 300 text) i tok /\ a = strip_separators tok.
Proof.
  rewrite extract_solution_strict, findall_strict.
  unfold _SOLUTION_CLIP_CHARS.
  destruct (strict_tokens (last_n 300 text)) as [|t l] eqn:E; [discriminate|].
  intros H. injection H as <-.
  assert (Hin : In (last (t :: l) []) (strict_tokens (last_n 300 text))).
  { rewrite E. apply last_In. discriminate. }
  apply strict_tokens_In in Hin as [i Hi]. eauto.
Qed.

(** X2: an answer of strict mode is the number of an occurrence of the
    marker in the last 300 characters, its commas taken out.  It is made of
    digits, points and minus signs only; the second [replace], of the
    dollar sign, never changes it, the pattern capturing no dollar sign. *)
Theorem strict_answer_shape (text a : str) :
  extract_solution (PyStr text) (lit "strict") = Ok (Some a) ->
  (exists i tok,
      strict_occ (last_n 300 text) i tok /\
      occurs_in (lit "#### " ++ tok) text /\
      a = replace_char (ord ",") [] tok) /\
  forallb answer_char a = true /\
  ~ In (ord ",") a /\ ~ In (ord "$") a.
Proof.
  intros H. destruct (extract_strict_Some _ _ H) as (i & tok & Ho & ->).
  assert (Hc : Forall (fun c => c = ord "-" \/ num_set c = true) tok).
  { destruct Ho as (_ & _ & _ & _ & Hn & _). now apply numeric_token_chars. }
  pose proof (strip_separators_chars _ Hc) as Ha.
  split; [|split; [exact Ha|]].
  - exists i, tok. split; [exact Ho|]. split.
    + eapply occurs_in_window. eapply strict_occ_occurs. exact Ho.
    + now apply strip_separators_commas.
  - rewrite forallb_forall in Ha.
    split; intros Hin; apply Ha in Hin; discriminate Hin.
Qed.

Lemma strict_answer_shape_witness :
  forallb answer_char (lit "1200") = true /\ ~ In (ord ",") (lit "1200").
Proof.
  destruct (strict_answer_shape (lit "The answer is #### 1,200") (lit "1200"))
    as (_ & Ha & Hc & _).
  - vm_compute. reflexivity.
  - split; [exact Ha | exact Hc].
Defined.

(** X3: an answer of flexible mode is a signed numeric token that stands in
    the text as it is returned, commas and points included, and it is neither
    [""] nor ["."]. *)
Theorem flexible_answer_shape (text a : str) :
  extract_solution (PyStr text) (lit "flexible") = Ok (Some a) ->
  numeric_token a /\ occurs_in a text /\ a <> [] /\ a <> lit ".".
Proof.
  rewrite extract_solution_flexible. unfold _SOLUTION_CLIP_CHARS.
  intros H. injection H as H.
  pose proof (first_valid_spec
                (rev (findall _FLEXIBLE_ANSWER_PATTERN (last_n 300 text)))) as S.
  rewrite H in S. destruct S as (b & af & E & Hn & _).
  assert (Hin : In a (findall _FLEXIBLE_ANSWER_PATTERN (last_n 300 text))).
  { apply in_rev. rewrite E. apply in_or_app. right. now left. }
  assert (T : tokenizes (last_n 300 text)
                (findall _FLEXIBLE_ANSWER_PATTERN (last_n 300 text)))
    by now apply tokenizes_iff.
  destruct (tokenizes_In _ _ _ T Hin) as [Ht Ho].
  split; [exact Ht|]. split; [eapply occurs_in_window; exact Ho|].
  split; intros ->; apply Hn; simpl; auto.
Qed.

Lemma flexible_answer_shape_witness :
  numeric_token (lit "1,200.") /\
  occurs_in (lit "1,200.") (lit "It costs 1,200.") /\
  lit "1,200." <> [] /\ lit "1,200." <> lit ".".
Proof.
  apply (flexible_answer_shape (lit "It costs 1,200.") (lit "1,200.")).
  vm_compute. reflexivity.
Defined.

(* ================================================================= *)
(** ** An answer in the expected format *)

Lemma last_n_app_keep (A : Type) (n : nat) (pre x : list A) :
  length x <= n -> exists pre', last_n n (pre ++ x) = pre' ++ x.
Proof.
  intros H. unfold last_n. rewrite length_app, skipn_app.
  exists (skipn (length pre + length x - n) pre).
  replace (length pre + length x - n - length pre) with 0 by lia.
  reflexivity.
Qed.

Lemma strict_tokens_app_last (pre x : str) :
  strict_tokens x <> [] ->
  strict_tokens (pre ++ x) <> [] /\
  last (strict_tokens (pre ++ x)) [] = last (strict_tokens x) [].
Proof.
  intros Hx. induction pre as [|c pre [IH1 IH2]]; [auto|].
  cbn [app strict_tokens].
  destruct (strict_here (c :: pre ++ x)) as [[t rest]|]; [|auto].
  split; [discriminate|]. now rewrite last_cons_nonempty.
Qed.

Lemma strict_tokens_no_hash (s : str) :
  Forall (fun c => N.eqb c (ord "#") = false) s -> strict_tokens s = [].
Proof.
  intros H. rewrite <- (app_nil_r s). now rewrite strict_tokens_skip.
Qed.

Lemma extract_strict_formatted (pre g post : str) :
  numeric_token g ->
  starts_with num_set post = false ->
  Forall (fun c => N.eqb c (ord "#") = false) post ->
  5 + length g + length post <= 300 ->
  extract_solution (PyStr (pre ++ lit "#### " ++ g ++ post)) (lit "strict")
  = Ok (Some (strip_separators g)).
Proof.
  intros Hg Hp Hh Hl.
  rewrite extract_solution_strict, findall_strict.
  unfold _SOLUTION_CLIP_CHARS.
  destruct (last_n_app_keep _ 300 pre (lit "#### " ++ g ++ post)) as [pre' ->].
  { rewrite !length_app. simpl. lia. }
  assert (E : strict_tokens (lit "#### " ++ g ++ post) = [g]).
  { rewrite (strict_tokens_match _ _ _ (strict_here_complete _ _ Hg Hp)).
    now rewrite (strict_tokens_no_hash _ Hh). }
  destruct (strict_tokens_app_last pre' (lit "#### " ++ g ++ post))
    as [Hne Hlast]; [rewrite E; discriminate|].
  rewrite E in Hlast. change (last [g] []) with g in Hlast.
  destruct (strict_tokens (pre' ++ lit "#### " ++ g ++ post));
    [congruence|]. now rewrite Hlast.
Qed.

Lemma compute_score_formatted (pre g post : str)
    (format_reward correct_reward : float) :
  numeric_token g ->
  ~ In (ord ",") g ->
  starts_with num_set post = false ->
  Forall (fun c => N.eqb c (ord "#") = false) post ->
  5 + length g + length post <= 300 ->
  compute_score (PyStr (pre ++ lit "#### " ++ g ++ post)) (PyStr g)
    (lit "strict") format_reward correct_reward = Ok correct_reward.
Proof.
  intros Hg Hc Hp Hh Hl.
  pose proof (extract_strict_formatted pre _ _ Hg Hp Hh Hl) as E.
  assert (Hs : strip_separators g = g).
  { rewrite (strip_separators_commas _ (numeric_token_chars _ Hg)).
    clear - Hc. unfold replace_char.
    induction g as [|c g IH]; [reflexivity|]. cbn [flat_map].
    destruct (N.eqb c (ord ",")) eqn:Ec.
    - apply N.eqb_eq in Ec. subst c. exfalso. apply Hc. now left.
    - cbn [app]. f_equal. apply IH. intros H. apply Hc. now right. }
  rewrite Hs in E.
  assert (Hne : pre ++ lit "#### " ++ g ++ post <> [])
    by (destruct pre; discriminate).
  apply (proj1 (proj2 (compute_score_cases_aux _ g (lit "strict")
                         format_reward correct_reward Hne
                         (numeric_token_nonempty _ Hg))) _ E).
  reflexivity.
Qed.

(** X4: a completion that ends, within its last 300 characters, with the
    marker, the ground truth and then text that has no [#] and does not go on
    with a digit, a point or a comma, earns the [score] argument in strict
    mode, whatever stands before the marker; the ground truth is a signed
    number written without commas. *)
Theorem formatted_answer_scores (pre g post : str) (format_reward correct_reward : float) :
  numeric_token g ->
  ~ In (ord ",") g ->
  starts_with num_set post = false ->
  Forall (fun c => N.eqb c (ord "#") = false) post ->
  5 + length g + length post <= 300 ->
  compute_score (PyStr (pre ++ lit "#### " ++ g ++ post)) (PyStr g)
    (lit "strict") format_reward correct_reward = Ok correct_reward.
Proof. apply compute_score_formatted. Qed.

Lemma formatted_answer_scores_witness :
  compute_score (PyStr (lit "6 * 7 = 42" ++ lit "#### " ++ lit "-42.5" ++ lit " (done)"))
    (PyStr (lit "-42.5")) (lit "strict") 0.3%float 1.0%float = Ok 1.0%float.
Proof.
  apply formatted_answer_scores.
  - apply nt_minus; [discriminate | reflexivity].
  - intros [H | [H | [H | [H | [H | []]]]]]; discriminate H.
  - reflexivity.
  - repeat constructor.
  - vm_compute. lia.
Defined.

(** X5: in strict mode a ground truth with a character that is not a digit,
    a point or a minus sign (a comma, a space, a currency or unit sign) never
    earns the [score] argument: the extracted answer has its commas taken
    out, the ground truth is compared as it is given. *)
Theorem unnormalised_truth_never_scores (c g : str)
    (format_reward correct_reward r : float) :
  (exists ch, In ch g /\ answer_char ch = false) ->
  compute_score (PyStr c) (PyStr g) (lit "strict") format_reward correct_reward
  = Ok r ->
  r = REWARD_NO_ANSWER \/ r = format_reward.
Proof.
  intros (ch & Hin & Hch). unfold compute_score.
  destruct (negb (truthy (PyStr c)) || negb (truthy (PyStr g)))%bool.
  - intros H; injection H as <-. now left.
  - destruct (extract_solution (PyStr c) (lit "strict")) as [[a|]|e] eqn:E;
      cbn [bind]; [| |discriminate].
    + cbn [str_eq_val]. destruct (str_eqb a g) eqn:Eq.
      * apply str_eqb_eq in Eq. subst a.
        assert (Ha : forallb answer_char g = true).
        { destruct (extract_strict_Some _ _ E) as (i & tok & Ho & ->).
          apply strip_separators_chars. apply numeric_token_chars.
          now destruct Ho as (_ & _ & _ & _ & Hn & _). }
        rewrite forallb_forall in Ha. rewrite (Ha _ Hin) in Hch. discriminate.
      * intros H; injection H as <-. now right.
    + intros H; injection H as <-. now left.
Qed.

Lemma unnormalised_truth_never_scores_witness :
  compute_score (PyStr (lit "#### 1,200")) (PyStr (lit "1,200")) (lit "strict")
    0.3%float 1.0%float = Ok 0.3%float /\
  (0.3%float = REWARD_NO_ANSWER \/ 0.3%float = 0.3%float).
Proof.
  assert (E : compute_score (PyStr (lit "#### 1,200")) (PyStr (lit "1,200"))
                (lit "strict") 0.3%float 1.0%float = Ok 0.3%float)
    by (vm_compute; reflexivity).
  split; [exact E|].
  apply (unnormalised_truth_never_scores (lit "#### 1,200") (lit "1,200")
           0.3%float 1.0%float 0.3%float).
  - exists (ord ","). split; [|reflexivity]. right. left. reflexivity.
  - exact E.
Defined.

(* ================================================================= *)
(** ** The two modes on one text *)

Lemma findall_flexible_head (tok post : str) :
  numeric_token tok -> starts_with num_set post = false ->
  exists l, findall _FLEXIBLE_ANSWER_PATTERN (tok ++ post) = tok :: l.
Proof.
  intros Ht Hp. unfold findall. cbn [findall_from].
  rewrite match_here_flexible, (number_at_complete _ _ Ht Hp).
  destruct (tok ++ post); eauto.
Qed.

Lemma app_eq_before (x : char) (t s pre rest : str) :
  Forall (fun c => c <> x) t ->
  t ++ s = pre ++ x :: rest ->
  exists pre', pre = t ++ pre' /\ s = pre' ++ x :: rest.
Proof.
  intros Ht. revert pre. induction Ht as [|c t Hc _ IH]; intros pre E.
  - exists pre. auto.
  - destruct pre as [|y pre]; simpl in E; injection E as -> E.
    + congruence.
    + destruct (IH _ E) as (pre' & -> & ->). exists pre'. auto.
Qed.

(** A number that follows a character which is neither of a number nor a
    minus sign is one of the tokens of the text. *)
Lemma tokenizes_after_separator (sep : char) (tok post : str) :
  num_set sep = false -> sep <> ord "-" ->
  numeric_token tok -> starts_with num_set post = false ->
  forall s toks,
    tokenizes s toks ->
    forall pre, s = pre ++ sep :: tok ++ post -> In tok toks.
Proof.
  intros Hs Hm Ht Hp s toks H.
  induction H as [|c s toks _ _ H IH|t s toks Hn _ H IH]; intros pre E.
  - destruct pre; discriminate E.
  - destruct pre as [|y pre]; simpl in E; injection E as -> E.
    + subst s. apply tokenizes_iff in H.
      destruct (findall_flexible_head _ _ Ht Hp) as [l El].
      rewrite El in H. subst toks. now left.
    + eauto.
  - right.
    assert (Hc : Forall (fun c => c <> sep) t).
    { eapply Forall_impl; [|exact (numeric_token_chars _ Hn)].
      intros c [H1 | H1] H2; subst; congruence. }
    destruct (app_eq_before _ _ _ _ _ Hc E) as (pre' & _ & E').
    eauto.
Qed.

(** X6: on a text where strict mode finds an answer other than ["."],
    flexible mode finds an answer too: the number after the marker is one of
    the tokens flexible mode looks at. *)
Theorem strict_answer_gives_flexible_answer (text a : str) :
  extract_solution (PyStr text) (lit "strict") = Ok (Some a) ->
  a <> lit "." ->
  exists b, extract_solution (PyStr text) (lit "flexible") = Ok (Some b).
Proof.
  intros H Ha. destruct (extract_strict_Some _ _ H) as (i & tok & Ho & ->).
  destruct Ho as (pre & post & E & _ & Ht & Hp).
  assert (Hin : In tok (findall _FLEXIBLE_ANSWER_PATTERN (last_n 300 text))).
  { apply (tokenizes_after_separator (ord " ") tok post)
      with (s := last_n 300 text) (pre := pre ++ lit "####");
      try reflexivity; try discriminate; auto.
    - now apply tokenizes_iff.
    - rewrite E, <- app_assoc. reflexivity. }
  rewrite extract_solution_flexible. unfold _SOLUTION_CLIP_CHARS.
  pose proof (first_valid_spec
                (rev (findall _FLEXIBLE_ANSWER_PATTERN (last_n 300 text)))) as S.
  destruct (first_valid _) as [b|]; [eauto|]. exfalso.
  rewrite Forall_forall in S. apply in_rev in Hin. apply S in Hin.
  destruct Hin as [<- | [<- | []]].
  - exact (numeric_token_nonempty _ Ht eq_refl).
  - apply Ha. reflexivity.
Qed.

Lemma strict_answer_gives_flexible_answer_witness :
  exists b,
    extract_solution (PyStr (lit "#### 42 (see step 3)")) (lit "flexible")
    = Ok (Some b).
Proof.
  apply (strict_answer_gives_flexible_answer (lit "#### 42 (see step 3)")
           (lit "42")).
  - vm_compute. reflexivity.
  - discriminate.
Defined.

(* ================================================================= *)
(** ** When [extract_solution] raises *)

Lemma extract_solution_nonstring (v : pyval) (m : str) :
  valid_method m -> (forall s, v <> PyStr s) ->
  extract_solution v m =
  if truthy v then
    Raise (TypeError match v with
                     | PyList _ => ExpectedStringOrBytes
                     | _ => NoLen
                     end)
  else Ok None.
Proof.
  intros Hm Hv. destruct v as [|s|z|l].
  - destruct Hm as [-> | ->]; reflexivity.
  - exfalso. exact (Hv s eq_refl).
  - unfold extract_solution. apply str_in_valid in Hm. rewrite Hm.
    cbn [negb truthy]. now destruct (Z.eqb z 0).
  - unfold extract_solution.
    pose proof Hm as Hm'. apply str_in_valid in Hm'. rewrite Hm'.
    cbn [negb truthy]. destruct l as [|x l]; [reflexivity|].
    cbn [is_nil negb py_len bind].
    destruct (_SOLUTION_CLIP_CHARS <? length (x :: l));
      cbn [py_slice_last bind]; destruct Hm as [-> | ->]; reflexivity.
Qed.

(** X7: [extract_solution] raises in two cases only: a [ValueError] for a
    method that is neither "strict" nor "flexible", and, the method being
    one of the two, a [TypeError] for a value that is not a string and is
    not falsy (from [len] for a number, from [re.findall] for a list).  On
    [None], [0] and the empty list it returns [None], and on a string it
    always returns. *)
Theorem extract_solution_raises (v : pyval) (m : str) (e : exn) :
  extract_solution v m = Raise e <->
  (~ valid_method m /\ e = ValueError (BadMethod m)) \/
  (valid_method m /\ truthy v = true /\
   ((exists z, v = PyInt z /\ e = TypeError NoLen) \/
    (exists l, v = PyList l /\ e = TypeError ExpectedStringOrBytes))).
Proof.
  destruct (str_in m [lit "strict"; lit "flexible"]) eqn:Hm.
  - apply str_in_valid in Hm. split.
    + intros H. right.
      assert (Hv : forall s, v <> PyStr s).
      { intros s ->. destruct (extract_solution_returns s m Hm) as [r Hr].
        congruence. }
      rewrite (extract_solution_nonstring _ _ Hm Hv) in H.
      destruct (truthy v) eqn:Ht; [|discriminate].
      injection H as <-. repeat split; auto.
      destruct v as [|s|z|l]; try discriminate Ht; eauto.
      exfalso. exact (Hv s eq_refl).
    + intros [[Hn _] | (_ & Ht & [(z & -> & ->) | (l & -> & ->)])];
        [contradiction| |];
        rewrite (extract_solution_nonstring _ _ Hm) by discriminate;
        now rewrite Ht.
  - rewrite (extract_solution_invalid _ _ Hm).
    assert (Hn : ~ valid_method m).
    { intros H. apply str_in_valid in H. congruence. }
    split.
    + intros H; injection H as <-. left. auto.
    + intros [[_ ->] | (H & _)]; [reflexivity | contradiction].
Qed.

Lemma extract_solution_raises_witness :
  extract_solution (PyList [PyStr (lit "#### 42")]) (lit "strict")
  = Raise (TypeError ExpectedStringOrBytes).
Proof.
  apply (proj2 (extract_solution_raises (PyList [PyStr (lit "#### 42")])
                  (lit "strict") (TypeError ExpectedStringOrBytes))).
  right. split; [left; reflexivity|]. split; [reflexivity|].
  right. exists [PyStr (lit "#### 42")]. split; reflexivity.
Defined.

(* ================================================================= *)
(** ** The batch on any values *)

Lemma score_loop_total (pairs : list (pyval * pyval)) (acc : list float) :
  (exists rs, score_loop pairs acc = Ok (acc ++ rs) /\ Forall2 scored pairs rs)
  \/ (exists e, score_loop pairs acc = Raise e /\ Exists score_raises pairs).
Proof.
  revert acc; induction pairs as [|[a gt] pairs IH]; intros acc.
  - left. exists []. cbn [score_loop]. rewrite app_nil_r. auto.
  - cbn [score_loop].
    destruct (compute_score a gt (lit "strict") REWARD_FORMAT_CORRECT
                REWARD_CORRECT) as [r|e] eqn:E; cbn [bind].
    + destruct (IH (acc ++ [r])) as [(rs & -> & F) | (e & -> & X)].
      * left. exists (r :: rs). rewrite <- app_assoc. split; [reflexivity|].
        constructor; assumption.
      * right. exists e. split; [reflexivity|]. now apply Exists_cons_tl.
    + right. exists e. split; [reflexivity|].
      apply Exists_cons_hd. exists e. exact E.
Qed.

(** X8: on two lists of one length, whatever they hold, [trl_reward_fn]
    raises nothing and returns as many rewards as there are completions:
    the reward of each pair when every pair can be scored, [REWARD_NO_ANSWER]
    everywhere when scoring one of them raises.  The only exception that
    leaves [trl_reward_fn] is the [ValueError] of two different lengths. *)
Theorem trl_reward_fn_total (prompts completions solution : list pyval) :
  (length completions = length solution ->
   exists rs,
     trl_reward_fn prompts completions solution = Ok rs /\
     length rs = length completions /\
     (Forall2 scored (combine completions solution) rs \/
      Exists score_raises (combine completions solution) /\
      rs = repeat REWARD_NO_ANSWER (length completions))) /\
  (forall e,
      trl_reward_fn prompts completions solution = Raise e ->
      length completions <> length solution /\
      e = ValueError (LengthMismatch (length completions) (length solution))).
Proof.
  split.
  - intros Hlen. unfold trl_reward_fn. rewrite <- Hlen, Nat.eqb_refl.
    cbn [negb]. destruct completions as [|c cs]; cbn [is_nil].
    + exists []. split; [reflexivity|]. split; [reflexivity|].
      left. destruct solution; constructor.
    + destruct (score_loop_total (combine (c :: cs) solution) [])
        as [(rs & -> & F) | (e & -> & X)].
      * exists rs. cbn [app]. split; [reflexivity|]. split; [|now left].
        apply Forall2_length in F. rewrite <- F, length_combine. lia.
      * exists (repeat REWARD_NO_ANSWER (length (c :: cs))).
        rewrite repeat_length. split; [reflexivity|]. split; [reflexivity|].
        right. split; [exact X | reflexivity].
  - intros e. unfold trl_reward_fn.
    destruct (length completions =? length solution) eqn:E; cbn [negb].
    + destruct (is_nil completions); [discriminate|].
      destruct (score_loop _ _); discriminate.
    + apply Nat.eqb_neq in E. intros H; injection H as <-. auto.
Qed.

Lemma trl_reward_fn_total_witness :
  exists rs,
    trl_reward_fn [] [PyList [PyStr (lit "#### 42")]] [PyStr (lit "42")]
    = Ok rs /\ length rs = 1.
Proof.
  destruct (proj1 (trl_reward_fn_total []
                     [PyList [PyStr (lit "#### 42")]] [PyStr (lit "42")])
              eq_refl) as (rs & H & Hl & _).
  exists rs. split; [exact H | exact Hl].
Defined.

(* ================================================================= *)
(** ** [validate_answer_format] *)

Lemma search_set (p : char -> bool) (s : str) :
  is_some (search (CharSet p) s) = existsb p s.
Proof.
  induction s as [|c s IH]; [reflexivity|].
  cbn [search existsb]. unfold match_here. cbn [run].
  destruct (p c); [reflexivity | exact IH].
Qed.

Lemma str_contains_occurs (sub s : str) :
  str_contains sub s = true <-> occurs_in sub s.
Proof.
  split.
  - induction s as [|c s IH]; cbn [str_contains].
    + destruct (strip_prefix sub []) as [t|] eqn:E; [|discriminate].
      intros _. apply strip_prefix_Some in E. now exists [], t.
    + destruct (strip_prefix sub (c :: s)) as [t|] eqn:E.
      * intros _. apply strip_prefix_Some in E. now exists [], t.
      * intros H. destruct (IH H) as (pre & post & ->).
        now exists (c :: pre), post.
  - intros (pre & post & ->). induction pre as [|c pre IH].
    + cbn [app]. destruct (sub ++ post) eqn:E; cbn [str_contains];
        rewrite <- E, strip_prefix_app; reflexivity.
    + cbn [app str_contains].
      destruct (strip_prefix sub (c :: pre ++ sub ++ post)); [reflexivity|].
      exact IH.
Qed.

Lemma validate_answer_format_str (unicode_digit : char -> bool) (s : str) :
  validate_answer_format unicode_digit (PyStr s)
  = Ok (existsb unicode_digit s || str_contains (lit "####") s)%bool.
Proof.
  unfold validate_answer_format. destruct s as [|c s]; [reflexivity|].
  cbn [truthy is_nil negb re_search bind]. now rewrite search_set.
Qed.

(** X9: on a string [validate_answer_format] always returns, and it
    returns [True] exactly when the string has a decimal digit or the four
    characters [####] in a row somewhere; the empty string gives [False]. *)
Theorem validate_answer_format_spec (unicode_digit : char -> bool) (s : str) :
  (exists b, validate_answer_format unicode_digit (PyStr s) = Ok b) /\
  (validate_answer_format unicode_digit (PyStr s) = Ok true <->
   (exists c, In c s /\ unicode_digit c = true) \/ occurs_in (lit "####") s) /\
  validate_answer_format unicode_digit (PyStr []) = Ok false.
Proof.
  rewrite validate_answer_format_str. split; [eauto|]. split; [|reflexivity].
  split.
  - intros H. injection H as H. apply orb_true_iff in H as [H | H].
    + left. apply existsb_exists in H. exact H.
    + right. now apply str_contains_occurs.
  - intros [H | H]; f_equal; apply orb_true_iff.
    + left. now apply existsb_exists.
    + right. now apply str_contains_occurs.
Qed.

Lemma validate_answer_format_spec_witness :
  validate_answer_format is_digit (PyStr (lit "see ####")) = Ok true.
Proof.
  apply (proj1 (proj2 (validate_answer_format_spec is_digit (lit "see ####")))).
  right. exists (lit "see "), []. reflexivity.
Defined.

(** X10: a text on which strict mode finds an answer passes
    [validate_answer_format], whatever the table of digits is: it has the
    marker. *)
Theorem strict_answer_validates (unicode_digit : char -> bool) (text a : str) :
  extract_solution (PyStr text) (lit "strict") = Ok (Some a) ->
  validate_answer_format unicode_digit (PyStr text) = Ok true.
Proof.
  intros H. destruct (extract_strict_Some _ _ H) as (i & tok & Ho & _).
  apply strict_occ_occurs in Ho. apply occurs_in_window in Ho.
  destruct Ho as (pre & post & ->).
  rewrite validate_answer_format_str. f_equal. apply orb_true_iff. right.
  apply str_contains_occurs.
  exists pre, (ord " " :: tok ++ post). now rewrite <- !app_assoc.
Qed.

Lemma strict_answer_validates_witness :
  validate_answer_format (fun _ => false) (PyStr (lit "so #### -3.5!"))
  = Ok true.
Proof.
  apply (strict_answer_validates (fun _ => false) (lit "so #### -3.5!")
           (lit "-3.5")).
  vm_compute. reflexivity.
Defined.

(* ================================================================= *)
(** ** The number a text ends with, in flexible mode *)

Lemma last_n_app_suffix (A : Type) (n : nat) (pre x : list A) :
  length x <= n ->
  exists pre0 pre', pre = pre0 ++ pre' /\ last_n n (pre ++ x) = pre' ++ x.
Proof.
  intros H. unfold last_n. rewrite length_app, skipn_app.
  exists (firstn (length pre + length x - n) pre),
         (skipn (length pre + length x - n) pre).
  split; [symmetry; apply firstn_skipn|].
  replace (length pre + length x - n - length pre) with 0 by lia.
  reflexivity.
Qed.

Lemma numeric_token_last (t : str) :
  numeric_token t -> exists t0 c, t = t0 ++ [c] /\ num_set c = true.
Proof.
  assert (A : forall body, body <> [] -> forallb num_set body = true ->
                           exists b0 c, body = b0 ++ [c] /\ num_set c = true).
  { intros body Hne Hall. destruct (exists_last Hne) as (b0 & c & ->).
    exists b0, c. split; [reflexivity|].
    rewrite forallb_app in Hall. apply andb_true_iff in Hall as [_ Hc].
    simpl in Hc. now rewrite andb_true_r in Hc. }
  intros [body Hne Hall | body Hne Hall];
    destruct (A body Hne Hall) as (b0 & c & -> & Hc).
  - eauto.
  - exists (ord "-" :: b0), c. auto.
Qed.

(** A number put after a text that ends neither inside a number nor with a
    minus sign the number would take is one more token, the last. *)
Lemma tokenizes_app_token (pre : str) (toks : list str) (tok : str) :
  tokenizes pre toks ->
  numeric_token tok ->
  (forall pre0 c,
      pre = pre0 ++ [c] ->
      num_set c = false /\
      (c = ord "-" -> starts_with (N.eqb (ord "-")) tok = true)) ->
  tokenizes (pre ++ tok) (toks ++ [tok]).
Proof.
  intros H Ht. induction H as [|c s toks Hc Hm H IH|t s toks Hn Hs H IH];
    intros Hb.
  - pose proof (tk_token tok [] [] Ht eq_refl tk_end) as T.
    rewrite app_nil_r in T. exact T.
  - cbn [app]. apply tk_skip; [exact Hc| |].
    + intros E. destruct s as [|d s]; [|exact (Hm E)].
      destruct (Hb [] c eq_refl) as [_ Hd]. specialize (Hd E).
      destruct tok as [|x tok]; [discriminate|]. cbn [app starts_with] in *.
      apply N.eqb_eq in Hd. subst x. apply num_set_minus.
    + apply IH. intros pre0 c' E. apply (Hb (c :: pre0)). now rewrite E.
  - rewrite <- app_assoc. cbn [app]. apply tk_token; [exact Hn| |].
    + destruct s as [|d s]; [|exact Hs]. exfalso.
      destruct (numeric_token_last _ Hn) as (t0 & c & E & Hc).
      destruct (Hb t0 c) as [Hf _]; [now rewrite app_nil_r|]. congruence.
    + apply IH. intros pre0 c' E. apply (Hb (t ++ pre0)).
      now rewrite E, app_assoc.
Qed.

(** X11: in flexible mode a text that ends with a number of at most 300
    characters gives that number as it is written, a point or comma at its
    end included, provided the number starts where a token can start: the
    character before it is not a digit, a point or a comma, and is a minus
    sign only if the number has its own.  The number is not ["."]. *)
Theorem flexible_returns_trailing_number (pre tok : str) :
  numeric_token tok ->
  tok <> lit "." ->
  length tok <= 300 ->
  (forall pre0 c,
      pre = pre0 ++ [c] ->
      num_set c = false /\
      (c = ord "-" -> starts_with (N.eqb (ord "-")) tok = true)) ->
  extract_solution (PyStr (pre ++ tok)) (lit "flexible") = Ok (Some tok).
Proof.
  intros Ht Hd Hl Hb. rewrite extract_solution_flexible.
  unfold _SOLUTION_CLIP_CHARS.
  destruct (last_n_app_suffix _ 300 pre tok Hl) as (pre0 & pre' & E & ->).
  assert (T : tokenizes (pre' ++ tok)
                (findall _FLEXIBLE_ANSWER_PATTERN pre' ++ [tok])).
  { apply tokenizes_app_token; [now apply tokenizes_iff | exact Ht|].
    intros q c Eq. apply (Hb (pre0 ++ q)). now rewrite E, Eq, app_assoc. }
  apply tokenizes_iff in T. rewrite T, rev_app_distr. cbn [rev app first_valid].
  assert (V : str_in tok _INVALID_ANSWERS = false).
  { destruct (str_in tok _INVALID_ANSWERS) eqn:V; [|reflexivity].
    apply str_in_In in V. destruct V as [<- | [<- | []]].
    - exfalso. exact (numeric_token_nonempty _ Ht eq_refl).
    - exfalso. apply Hd. reflexivity. }
  now rewrite V.
Qed.

Lemma flexible_returns_trailing_number_witness :
  extract_solution (PyStr (lit "The answer is " ++ lit "42."))
    (lit "flexible") = Ok (Some (lit "42.")).
Proof.
  apply flexible_returns_trailing_number.
  - apply nt_plain; [discriminate | reflexivity].
  - discriminate.
  - vm_compute. lia.
  - intros pre0 c E.
    assert (Hc : c = ord " ").
    { apply (f_equal (@rev char)) in E. rewrite rev_app_distr in E.
      vm_compute in E. injection E as E _. symmetry. exact E. }
    subst c. split; [reflexivity | discriminate].
Defined.

(* ================================================================= *)
(** ** A batch of answers in the expected format *)

(** X12: when every completion of a batch ends with the marker and its own
    ground truth, a signed number of at most 295 characters written without
    commas, [trl_reward_fn] returns [REWARD_CORRECT] (1.0) for every element,
    as the example of its docstring shows on two of them. *)
Theorem trl_reward_fn_all_correct (prompts : list pyval) (l : list (str * str)) :
  Forall (fun p => numeric_token (snd p) /\ ~ In (ord ",") (snd p) /\
                   5 + length (snd p) <= 300) l ->
  trl_reward_fn prompts
    (map (fun p => PyStr (fst p ++ lit "#### " ++ snd p)) l)
    (map (fun p => PyStr (snd p)) l)
  = Ok (repeat REWARD_CORRECT (length l)).
Proof.
  intros H. unfold trl_reward_fn. rewrite !length_map, Nat.eqb_refl.
  cbn [negb]. destruct l as [|p0 l0] eqn:El; [reflexivity|].
  rewrite <- El in *. replace (is_nil _) with false by (rewrite El; reflexivity).
  rewrite (score_loop_Ok _ (repeat REWARD_CORRECT (length l))); [reflexivity|].
  clear El. induction H as [|[pre g] l (Hg & Hc & Hl) _ IH]; [constructor|].
  cbn [map combine length repeat fst snd]. constructor; [|exact IH].
  unfold scored. cbn [fst snd].
  pose proof (compute_score_formatted pre g [] REWARD_FORMAT_CORRECT
                REWARD_CORRECT Hg Hc eq_refl (Forall_nil _)) as S.
  rewrite app_nil_r in S. apply S. cbn [snd length] in *. lia.
Qed.

Lemma trl_reward_fn_all_correct_witness :
  trl_reward_fn []
    (map (fun p => PyStr (fst p ++ lit "#### " ++ snd p))
         [(lit "so ", lit "42"); (lit "then ", lit "-2.5")])
    (map (fun p => PyStr (snd p)) [(lit "so ", lit "42"); (lit "then ", lit "-2.5")])
  = Ok [1.0%float; 1.0%float].
Proof.
  apply (trl_reward_fn_all_correct []
           [(lit "so ", lit "42"); (lit "then ", lit "-2.5")]).
  constructor; [split; [|split] | constructor; [split; [|split] | constructor]];
    cbn [snd].
  - apply nt_plain; [discriminate | reflexivity].
  - intros [H | [H | []]]; discriminate H.
  - vm_compute. lia.
  - apply nt_minus; [discriminate | reflexivity].
  - intros [H | [H | [H | [H | []]]]]; discriminate H.
  - vm_compute. lia.
Defined.
